(** * XNNPACK GEMM partitioner configs: dependency resolution

    A shallow embedding of [backends/xnnpack/partition/config/gemm_configs.py]
    (classes [GEMMConfig], [LinearConfig], [ConvolutionConfig], [AddmmConfig]
    and [MMConfig]) together with the properties its specification states
    about it.

    Conventions of the embedding:
    - fx nodes are objects of a store ([Graph]); a node is named by a
      [node_id] and its attributes are read through the store;
    - Python exceptions are explicit: every function that can raise returns
      a [result]; the loop of [find_partition_args] is bounded by fuel and
      running out of fuel is a third outcome;
    - functions that mutate (the implicit q/dq tag, the argument swap of the
      addmm adaptation, the cache of source partitions) run in the state
      and exception monad [M];
    - the diagnostic callback [why] only writes to a log that nothing reads
      back; it is left out. *)

From stdpp Require Import base option list strings gmap.

Open Scope string_scope.
Open Scope list_scope.
Open Scope nat_scope.
Open Scope stdpp_scope.

(** ** Outcomes of Python code *)

Inductive exn := IndexError | AttributeError | TypeError | KeyError.

Inductive result (A : Type) :=
| Ret (a : A)
| Raise (e : exn)
| OutOfFuel.
Arguments Ret {A} a.
Arguments Raise {A} e.
Arguments OutOfFuel {A}.

#[global] Instance result_ret : MRet result := @Ret.
#[global] Instance result_bind : MBind result := fun A B f r =>
  match r with
  | Ret a => f a
  | Raise e => Raise e
  | OutOfFuel => OutOfFuel
  end.
#[global] Instance result_fmap : FMap result := fun A B f r =>
  match r with
  | Ret a => Ret (f a)
  | Raise e => Raise e
  | OutOfFuel => OutOfFuel
  end.

(** ** Data model *)

Definition node_id := nat.
Definition dict_id := nat.

(** An argument of a node: a reference to a node, [None], an integer, a
    boolean or a list of integers (strides, paddings). *)
Inductive Arg :=
| ANode (n : node_id)
| ANone
| AInt (z : Z)
| ABool (b : bool)
| AInts (l : list Z).

#[global] Instance Arg_eq_dec : EqDecision Arg.
Proof. solve_decision. Defined.

(** Modelled from the spec: [torch.fx.Node] (the spec's GraphNode) is not
    part of the source file.  A node has the kind of operation [n_op]
    (the string ["call_function"], ["placeholder"], ...), the name of its
    target [n_target] (what [target.__name__] returns), its argument tuple
    [n_args] and its consumers [n_users].  The consumers are a dictionary
    object: the node holds a reference into the store of dictionaries, so
    that [node.users = other.users] shares the object instead of copying. *)
Record Node := mkNode {
  n_op : string;
  n_target : string;
  n_args : list Arg;
  n_users : dict_id;
}.

#[global] Instance Node_inhabited : Inhabited Node :=
  populate (mkNode "" "" [] 0).

Record Graph := mkGraph {
  g_nodes : gmap node_id Node;
  g_dicts : gmap dict_id (list node_id);
}.

Inductive ConfigPrecisionType := FP32 | STATIC_QUANT | DYNAMIC_QUANT.

#[global] Instance ConfigPrecisionType_eq_dec : EqDecision ConfigPrecisionType.
Proof. solve_decision. Defined.

(** [torch.fx.passes.utils.source_matcher_utils.SourcePartition], the fields
    the source reads. *)
Record SourcePartition := mkSourcePartition {
  sp_nodes : list node_id;
  sp_input_nodes : list node_id;
  sp_output_nodes : list node_id;
}.

(** The four concrete classes of the source. *)
Inductive Family := Linear | Convolution | Addmm | MM.

(** The attributes of a config object that are fixed at construction.
    [enabled_precision_types] and
    [force_non_static_weights_for_f32_linear] belong to the base class
    [XNNPartitionerConfig] and are set by the caller. *)
Record Config := mkConfig {
  family : Family;
  weight_idx : nat;
  bias_idx : option nat;
  act_idx : nat;
  fused_acts : list string;
  enabled_precision_types : list ConfigPrecisionType;
  force_non_static_weights_for_f32_linear : bool;
}.

Definition default_fused_acts : list string :=
  ["relu.default"; "hardtanh.default"].

Definition LinearConfig (enabled : list ConfigPrecisionType) (force : bool) : Config :=
  mkConfig Linear 1 (Some 2) 0 default_fused_acts enabled force.

Definition ConvolutionConfig (enabled : list ConfigPrecisionType) (force : bool) : Config :=
  mkConfig Convolution 1 (Some 2) 0 default_fused_acts enabled force.

Definition AddmmConfig (enabled : list ConfigPrecisionType) (force : bool) : Config :=
  mkConfig Addmm 2 (Some 0) 1 default_fused_acts enabled force.

Definition MMConfig (enabled : list ConfigPrecisionType) (force : bool) : Config :=
  mkConfig MM 1 None 0 default_fused_acts enabled force.

(** Quantization parameters of a weight, as far as
    [ConvolutionConfig.check_constraints] reads them. *)
Record QuantParams := mkQuantParams {
  per_channel : bool;
  axis : Z;
}.

(** ** Reading the graph *)

Definition node_of (g : Graph) (n : node_id) : Node := g_nodes g !!! n.

Definition node_args (g : Graph) (n : node_id) : list Arg := n_args (node_of g n).

(** [list(node.users.keys())] *)
Definition node_users (g : Graph) (n : node_id) : list node_id :=
  default [] (g_dicts g !! n_users (node_of g n)).

(** The nodes among a tuple of arguments, each once, in the order of first
    appearance: this is how fx maintains [node.all_input_nodes]. *)
Fixpoint input_nodes_of (seen : list node_id) (l : list Arg) : list node_id :=
  match l with
  | [] => []
  | ANode m :: l' =>
      if bool_decide (m ∈ seen) then input_nodes_of seen l'
      else m :: input_nodes_of (m :: seen) l'
  | _ :: l' => input_nodes_of seen l'
  end.

Definition all_input_nodes (g : Graph) (n : node_id) : list node_id :=
  input_nodes_of [] (node_args g n).

(** [t[i]] on a tuple or list *)
Definition index {A} (l : list A) (i : nat) : result A :=
  match l !! i with
  | Some a => Ret a
  | None => Raise IndexError
  end.

(** [get_input_node(node, idx)] is [node.args[idx]] with a cast. *)
Definition get_input_node (g : Graph) (n : node_id) (idx : nat) : result Arg :=
  index (node_args g n) idx.

(** A value used as a node: reading an attribute of something that is not
    a node raises. *)
Definition as_node (a : Arg) : result node_id :=
  match a with
  | ANode m => Ret m
  | _ => Raise AttributeError
  end.

(** [is_node(x)] is [isinstance(x, torch.fx.Node)]. *)
Definition is_node (a : Arg) : bool :=
  match a with
  | ANode _ => true
  | _ => false
  end.

(** Truth value of an argument in a condition. *)
Definition truthy (a : Arg) : bool :=
  match a with
  | ANode _ => true
  | ANone => false
  | AInt z => negb (z =? 0)%Z
  | ABool b => b
  | AInts l => negb (length l =? 0)%nat
  end.

(** [len(x)] of an argument *)
Definition arg_len (a : Arg) : result nat :=
  match a with
  | AInts l => Ret (length l)
  | _ => Raise TypeError
  end.

Definition as_ints (a : Arg) : result (list Z) :=
  match a with
  | AInts l => Ret l
  | _ => Raise TypeError
  end.

(** An argument compared as an integer; a Python bool is an integer. *)
Definition as_int (a : Arg) : result Z :=
  match a with
  | AInt z => Ret z
  | ABool b => Ret (if b then 1 else 0)%Z
  | _ => Raise TypeError
  end.

Definition mem {A} `{EqDecision A} (x : A) (l : list A) : bool :=
  bool_decide (x ∈ l).

(** ** The collaborators outside the source file

    Modelled from the spec: the quantization-shape predicates, the
    node-kind predicates, the parameter predicate and the other helpers the
    source imports are not part of the source file.  The spec treats them
    as boolean oracles; they are the fields of this class.  Each one may
    read the whole graph; none reads the implicit q/dq tag, which is
    therefore kept outside [Graph]. *)
Class QuantUtils := {
  is_dequant : Graph → node_id → bool;
  is_quant : Graph → node_id → bool;
  is_dynamic_qdq : Graph → node_id → bool;
  is_per_tensor : Graph → node_id → bool;
  is_per_channel : Graph → node_id → bool;
  is_per_channel_group : Graph → node_id → bool;
  is_affine_qdq : Graph → node_id → bool;
  is_qparam : Graph → node_id → bool;
  is_getitem : Graph → node_id → bool;
  is_param_node : Graph → node_id → bool;
  extract_qdq_affine_op_args_for_decomposed_ops : Graph → node_id → list Arg;
  format_target_name : string → string;
  check_common_constraints : Config → Graph → node_id → bool;
  get_shape : Graph → node_id → list Z;
  QuantParams_from_weights : Graph → node_id → option QuantParams;
  is_depthwise_conv : list Z → Arg → Arg → bool;
  get_source_partitions : Graph → list (list SourcePartition);
}.

(** ** The resolvers of [GEMMConfig] *)

Section Resolvers.
Context `{Q : QuantUtils}.

(** [supported_precision_types], overridden by each concrete class. *)
Definition supported_precision_types (cfg : Config) : list ConfigPrecisionType :=
  match family cfg with
  | Linear => [DYNAMIC_QUANT; FP32; STATIC_QUANT]
  | Convolution => [FP32; STATIC_QUANT; DYNAMIC_QUANT]
  | Addmm => [FP32; STATIC_QUANT; DYNAMIC_QUANT]
  | MM => [FP32; STATIC_QUANT; DYNAMIC_QUANT]
  end.

Definition _detect_precision (cfg : Config) (g : Graph) (node : node_id)
  : result ConfigPrecisionType :=
  weight ← get_input_node g node (weight_idx cfg);
  weight ← as_node weight;
  if negb (is_dequant g weight) then Ret FP32
  else
    activation ← get_input_node g node (act_idx cfg);
    activation ← as_node activation;
    if is_dynamic_qdq g activation then Ret DYNAMIC_QUANT
    else Ret STATIC_QUANT.

Definition _overwrite_precision (cfg : Config) (g : Graph) (node : node_id)
  : result (bool * ConfigPrecisionType) :=
  precision ← _detect_precision cfg g node;
  if negb (mem precision (enabled_precision_types cfg))
     && bool_decide (enabled_precision_types cfg = [FP32])
     && mem precision [STATIC_QUANT; DYNAMIC_QUANT]
  then Ret (true, FP32)
  else Ret (false, precision).

Definition GEMM_get_weight_deps (cfg : Config) (g : Graph) (node : node_id)
    (precision : ConfigPrecisionType) : result (bool * list node_id) :=
  if bool_decide (precision = FP32) then
    weight_node ← get_input_node g node (weight_idx cfg);
    weight_node ← as_node weight_node;
    if negb (is_param_node g weight_node) then Ret (false, [])
    else Ret (true, [weight_node])
  else
    dequant_node ← get_input_node g node (weight_idx cfg);
    dequant_node ← as_node dequant_node;
    if negb (is_dequant g dequant_node) then Ret (false, [])
    else
      weight ← get_input_node g dequant_node 0;
      weight ← as_node weight;
      if negb (is_param_node g weight) then Ret (false, [])
      else if is_per_tensor g dequant_node && bool_decide (precision = DYNAMIC_QUANT)
      then Ret (false, [])
      else if is_per_channel g dequant_node || is_per_channel_group g dequant_node
      then
        if (length (all_input_nodes g dequant_node) <? 2)%nat then Ret (false, [])
        else Ret (true, [dequant_node; weight]
                          ++ take 2 (drop 1 (all_input_nodes g dequant_node)))
      else Ret (true, [dequant_node; weight]).

(** [n_output.op == "call_function" and
     format_target_name(n_output.target.__name__) in self.fused_acts] *)
Definition is_fused_act (cfg : Config) (g : Graph) (n_output : node_id) : bool :=
  bool_decide (n_op (node_of g n_output) = "call_function")
  && mem (format_target_name (n_target (node_of g n_output))) (fused_acts cfg).

Definition _get_output_deps (cfg : Config) (g : Graph) (node : node_id)
    (precision : ConfigPrecisionType) : result (bool * list node_id) :=
  match precision with
  | STATIC_QUANT =>
      match node_users g node with
      | [n_output] =>
          let '(gemm_deps, n_output) :=
            if is_fused_act cfg g n_output then
              match node_users g n_output with
              | [u] => ([n_output], u)
              | _ => ([n_output], n_output)
              end
            else ([], n_output) in
          if negb (is_quant g n_output) then Ret (false, [])
          else Ret (true, gemm_deps ++ [n_output])
      | _ => Ret (false, [])
      end
  | FP32 =>
      match node_users g node with
      | [n_output] =>
          if is_fused_act cfg g n_output then Ret (true, [n_output])
          else Ret (true, [])
      | _ => Ret (true, [])
      end
  | DYNAMIC_QUANT => Ret (true, [])
  end.

Definition _get_bias_deps (cfg : Config) (g : Graph) (node : node_id)
    (precision : ConfigPrecisionType) : result (bool * list node_id) :=
  if bool_decide (precision = FP32) && force_non_static_weights_for_f32_linear cfg
  then Ret (true, [])
  else
    match bias_idx cfg with
    | Some bias_idx =>
        if (2 <? length (all_input_nodes g node))%nat then
          bias_node ← get_input_node g node bias_idx;
          if truthy bias_node then
            bias ← as_node bias_node;
            if negb (is_param_node g bias) then Ret (false, [])
            else Ret (true, [bias])
          else Ret (true, [])
        else Ret (true, [])
    | None => Ret (true, [])
    end.

Definition _get_act_deps (cfg : Config) (g : Graph) (node : node_id)
    (precision : ConfigPrecisionType) : result (bool * list node_id) :=
  if bool_decide (precision = FP32) then Ret (true, [])
  else
    dq_input ← get_input_node g node (act_idx cfg);
    dq_input ← as_node dq_input;
    if negb (is_dequant g dq_input) then Ret (false, [])
    else if bool_decide (precision = STATIC_QUANT) then Ret (true, [dq_input])
    else
      q_input ← get_input_node g dq_input 0;
      q_input ← as_node q_input;
      if negb (is_quant g q_input) then Ret (false, [])
      else
        let q_input_args :=
          if is_affine_qdq g q_input
          then extract_qdq_affine_op_args_for_decomposed_ops g q_input
          else node_args g q_input in
        a1 ← index q_input_args 1;
        if negb (is_node a1) then Ret (false, [])
        else
          a2 ← index q_input_args 2;
          if negb (is_node a2) then Ret (false, [])
          else
            getitem1 ← as_node a1;
            getitem2 ← as_node a2;
            if negb (is_getitem g getitem1 && is_getitem g getitem2)
            then Ret (false, [])
            else
              choose_qparam ← get_input_node g getitem1 0;
              choose_qparam ← as_node choose_qparam;
              if negb (is_qparam g choose_qparam) then Ret (false, [])
              else Ret (true, [dq_input; q_input; getitem1; getitem2; choose_qparam]).

(** *** The overrides of [_get_weight_deps] *)

Definition Linear_get_weight_deps (cfg : Config) (g : Graph) (node : node_id)
    (precision : ConfigPrecisionType) : result (bool * list node_id) :=
  if bool_decide (precision = FP32) && force_non_static_weights_for_f32_linear cfg
  then Ret (true, [])
  else
    '(overwritten_linear_precision, new_precision) ← _overwrite_precision cfg g node;
    if bool_decide (new_precision = FP32) && overwritten_linear_precision
    then Ret (true, [])
    else GEMM_get_weight_deps cfg g node precision.

Definition Addmm_get_weight_deps (cfg : Config) (g : Graph) (node : node_id)
    (precision : ConfigPrecisionType) : result (bool * list node_id) :=
  if bool_decide (precision = FP32) && force_non_static_weights_for_f32_linear cfg
  then Ret (true, [])
  else GEMM_get_weight_deps cfg g node precision.

Definition MM_get_weight_deps (cfg : Config) (g : Graph) (node : node_id)
    (precision : ConfigPrecisionType) : result (bool * list node_id) :=
  if bool_decide (precision = FP32) && force_non_static_weights_for_f32_linear cfg
  then Ret (true, [])
  else Addmm_get_weight_deps cfg g node precision.

(** [self._get_weight_deps]: method dispatch on the class of the object. *)
Definition _get_weight_deps (cfg : Config) : Graph → node_id → ConfigPrecisionType
    → result (bool * list node_id) :=
  match family cfg with
  | Linear => Linear_get_weight_deps cfg
  | Convolution => GEMM_get_weight_deps cfg
  | Addmm => Addmm_get_weight_deps cfg
  | MM => MM_get_weight_deps cfg
  end.

End Resolvers.

(** ** Mutable state

    What a call can change: the graph (the addmm adaptation rewrites the
    arguments and the consumers of a node), the set of nodes tagged as
    implicit q/dq nodes ([tag_as_implicit_q_dq] sets a key of [node.meta]),
    and the attribute [self.src_partitions] of an [AddmmConfig] object. *)
Record State := mkState {
  graph : Graph;
  implicit_q_dq : gset node_id;
  src_partitions : option (list (list SourcePartition));
}.

Definition M (A : Type) : Type := State → result A * State.

#[global] Instance M_ret : MRet M := fun A a st => (Ret a, st).
#[global] Instance M_bind : MBind M := fun A B f m st =>
  match m st with
  | (Ret a, st') => f a st'
  | (Raise e, st') => (Raise e, st')
  | (OutOfFuel, st') => (OutOfFuel, st')
  end.

(** Code that only reads the graph. *)
Definition reading {A} (f : Graph → result A) : M A :=
  fun st => (f (graph st), st).

Definition get_graph : M Graph := reading Ret.

Definition with_args (a : list Arg) (nd : Node) : Node :=
  mkNode (n_op nd) (n_target nd) a (n_users nd).

Definition with_users (d : dict_id) (nd : Node) : Node :=
  mkNode (n_op nd) (n_target nd) (n_args nd) d.

(** The keys of the dictionary object [d], in the order of insertion. *)
Definition users_of (dicts : gmap dict_id (list node_id)) (d : dict_id) : list node_id :=
  default [] (dicts !! d).

Definition with_dicts (dicts : gmap dict_id (list node_id)) (st : State) : State :=
  mkState (mkGraph (g_nodes (graph st)) dicts) (implicit_q_dq st) (src_partitions st).

(** The keys of a dictionary without [node], and with [node], which goes to
    the end when it is new. *)
Definition drop_user (node : node_id) (users : list node_id) : list node_id :=
  filter (λ u, u ≠ node) users.

Definition add_user (node : node_id) (users : list node_id) : list node_id :=
  if mem node users then users else users ++ [node].

(** [n.users.pop(node)]: the key is taken out, the order of the others is
    kept, and a missing key raises. *)
Definition users_pop (node n : node_id) : M unit := fun st =>
  let g := graph st in
  let d := n_users (node_of g n) in
  let users := users_of (g_dicts g) d in
  if mem node users
  then (Ret tt, with_dicts (<[d := drop_user node users]> (g_dicts g)) st)
  else (Raise KeyError, st).

(** [n.users.setdefault(node)]: a new key goes to the end. *)
Definition users_setdefault (node n : node_id) : M unit := fun st =>
  let g := graph st in
  let d := n_users (node_of g n) in
  let users := users_of (g_dicts g) d in
  (Ret tt, with_dicts (<[d := add_user node users]> (g_dicts g)) st).

(** The dictionary objects that the nodes of a list hold as [users]. *)
Definition operand_dicts (g : Graph) (l : list node_id) : list dict_id :=
  (λ n, n_users (node_of g n)) <$> l.

(** What the setter of [args] leaves in the dictionary [d], when [olds] are
    the dictionaries of the operands before and [news] those of the
    operands after. *)
Definition moved (node : node_id) (olds news : list dict_id)
    (dicts : gmap dict_id (list node_id)) (d : dict_id) : option (list node_id) :=
  if decide (d ∈ news)
  then Some (add_user node (if decide (d ∈ olds)
                            then drop_user node (users_of dicts d)
                            else users_of dicts d))
  else if decide (d ∈ olds) then Some (drop_user node (users_of dicts d))
  else dicts !! d.

(** The nodes among the arguments, with repetitions. *)
Definition arg_nodes (a : list Arg) : list node_id :=
  omap (λ x, match x with ANode m => Some m | _ => None end) a.

(** The store into the attribute that holds the arguments. *)
Definition write_args (node : node_id) (a : list Arg) : M unit := fun st =>
  let g := graph st in
  (Ret tt,
   mkState (mkGraph (alter (with_args a) node (g_nodes g)) (g_dicts g))
           (implicit_q_dq st) (src_partitions st)).

(** [node.users = d], where [d] is a dictionary object *)
Definition set_users (node : node_id) (d : dict_id) : M unit := fun st =>
  let g := graph st in
  (Ret tt,
   mkState (mkGraph (alter (with_users d) node (g_nodes g)) (g_dicts g))
           (implicit_q_dq st) (src_partitions st)).

Definition tag_as_implicit_q_dq (node : node_id) : M unit := fun st =>
  (Ret tt, mkState (graph st) ({[node]} ∪ implicit_q_dq st) (src_partitions st)).

Definition get_src_partitions : M (option (list (list SourcePartition))) :=
  fun st => (Ret (src_partitions st), st).

Definition set_src_partitions (p : list (list SourcePartition)) : M unit :=
  fun st => (Ret tt, mkState (graph st) (implicit_q_dq st) (Some p)).

(** [for x in l: body(x)] *)
Fixpoint for_each {A} (l : list A) (body : A → M unit) : M unit :=
  match l with
  | [] => mret tt
  | x :: l' => body x;; for_each l' body
  end.

(** [node.args = a].  [args] is a property of [torch.fx.Node]; its setter
    keeps the [users] dictionaries in step with the arguments: it takes the
    node out of [users] of every node it has as an operand, puts it into
    [users] of every node among the new arguments, and then stores the
    arguments. *)
Definition set_args (node : node_id) (a : list Arg) : M unit :=
  g ← get_graph;
  for_each (all_input_nodes g node) (users_pop node);;
  for_each (arg_nodes a) (users_setdefault node);;
  write_args node a.

(** [[f(x) for x in l]], stopping at the first exception *)
Fixpoint map_result {A B} (f : A → result B) (l : list A) : result (list B) :=
  match l with
  | [] => Ret []
  | x :: l' => y ← f x; ys ← map_result f l'; Ret (y :: ys)
  end.

(** [list(set(a) & set(b))] and [list(set(a) | set(b))]: the elements of
    the set in the order the set enumerates them. *)
Definition list_set_inter (a b : list node_id) : list node_id :=
  elements ((list_to_set a : gset node_id) ∩ list_to_set b).

Definition list_set_union (a b : list node_id) : list node_id :=
  elements ((list_to_set a : gset node_id) ∪ list_to_set b).

(** *** Frame conditions on computations *)

(** What a computation leaves unchanged, whatever its outcome. *)
Definition keeps_graph {A} (m : M A) : Prop :=
  ∀ st, graph (m st).2 = graph st.

Definition keeps_cache {A} (m : M A) : Prop :=
  ∀ st, src_partitions (m st).2 = src_partitions st.

Definition grows_tags {A} (m : M A) : Prop :=
  ∀ st, implicit_q_dq st ⊆ implicit_q_dq (m st).2.

(** A computation whose outcome and whose final graph are functions of the
    graph it starts from: it reads neither the tags nor the cache. *)
Definition graph_determined {A} (m : M A) : Prop :=
  ∀ st st', graph st = graph st' →
    (m st).1 = (m st').1 ∧ graph (m st).2 = graph (m st').2.

(** ** The entry points *)

Section Configs.
Context `{Q : QuantUtils}.

(** [GEMMConfig.get_deps] *)
Definition GEMM_get_deps (cfg : Config) (node : node_id) : M (bool * list node_id) :=
  precision ← reading (λ g, _detect_precision cfg g node);
  if negb (mem precision (supported_precision_types cfg)) then mret (false, [])
  else
    '(_, precision) ← reading (λ g, _overwrite_precision cfg g node);
    '(valid_bias, bias_deps) ← reading (λ g, _get_bias_deps cfg g node precision);
    '(valid_weight, weight_deps) ← reading (λ g, _get_weight_deps cfg g node precision);
    '(valid_act, act_deps) ← reading (λ g, _get_act_deps cfg g node precision);
    '(valid_output, output_deps) ← reading (λ g, _get_output_deps cfg g node precision);
    let valid_deps := valid_bias && valid_weight && valid_act && valid_output in
    let deps := bias_deps ++ weight_deps ++ act_deps ++ output_deps in
    g ← get_graph;
    for_each deps (λ dep,
      if is_dequant g dep || is_quant g dep then tag_as_implicit_q_dq dep
      else mret tt);;
    mret (valid_deps, deps).

(** The local function [find_partition_args] of
    [get_deps_from_src_partition]; the [while] loop takes one unit of fuel
    per test of its condition. *)
Fixpoint find_partition_args (g : Graph) (src_partition : SourcePartition)
    (fuel : nat) (input_node : node_id) : result node_id :=
  match fuel with
  | 0 => OutOfFuel
  | S fuel' =>
      match all_input_nodes g input_node with
      | [] => Ret input_node
      | first :: _ =>
          if negb (mem input_node (sp_input_nodes src_partition))
          then find_partition_args g src_partition fuel' first
          else Ret input_node
      end
  end.

(** The condition of "validate source partition", [or] and [and] taking
    their operands from left to right. *)
Definition invalid_source_partition (cfg : Config) (src_partition : SourcePartition)
    (fake_args : list node_id) : result bool :=
  bias_outside ←
    match bias_idx cfg return result bool with
    | None => Ret false
    | Some 0 => Ret false
    | Some bias_idx =>
        bias ← index fake_args bias_idx;
        Ret (negb (mem bias (sp_nodes src_partition)))
    end;
  if (bias_outside : bool) then Ret true
  else
    act ← index fake_args (act_idx cfg);
    if negb (mem act (sp_input_nodes src_partition)) then Ret true
    else
      weight ← index fake_args (weight_idx cfg);
      if negb (mem weight (sp_nodes src_partition ++ sp_input_nodes src_partition))
      then Ret true
      else Ret (negb (length (sp_output_nodes src_partition) =? 1)).

(** [AddmmConfig.get_deps_from_src_partition] *)
Definition get_deps_from_src_partition (cfg : Config) (fuel : nat) (node : node_id)
    (src_partition : SourcePartition) : M (bool * list node_id) :=
  g ← get_graph;
  let old_args := node_args g node in
  let old_users := n_users (node_of g node) in
  fake_args ← reading (λ g,
    map_result (λ arg, arg ← as_node arg;
                       find_partition_args g src_partition fuel arg)
               (node_args g node));
  invalid ← reading (λ _, invalid_source_partition cfg src_partition fake_args);
  if (invalid : bool) then mret (false, [])
  else
    set_args node (ANode <$> fake_args);;
    output ← reading (λ _, index (sp_output_nodes src_partition) 0);
    g ← get_graph;
    set_users node (n_users (node_of g output));;
    '(valid_deps, deps) ← GEMM_get_deps cfg node;
    set_args node old_args;;
    set_users node old_users;;
    let ret_deps :=
      if force_non_static_weights_for_f32_linear cfg
      then list_set_inter deps (sp_nodes src_partition)
      else list_set_union deps (sp_nodes src_partition) in
    mret (valid_deps, ret_deps).

(** The search of [AddmmConfig.get_deps] for the partition of a node: the
    last partition that contains the node wins. *)
Definition find_src_partition (partitions : list (list SourcePartition))
    (node : node_id) : option SourcePartition :=
  foldl (λ found partition_list,
           foldl (λ found partition,
                    if mem node (sp_nodes partition) then Some partition else found)
                 found partition_list)
        None partitions.

(** [AddmmConfig.get_deps], inherited by [MMConfig] *)
Definition Addmm_get_deps (cfg : Config) (fuel : nat) (node : node_id)
  : M (bool * list node_id) :=
  cached ← get_src_partitions;
  partitions ←
    match cached with
    | None =>
        g ← get_graph;
        set_src_partitions (get_source_partitions g);;
        mret (get_source_partitions g)
    | Some partitions => mret partitions
    end;
  match find_src_partition partitions node with
  | Some src_partition => get_deps_from_src_partition cfg fuel node src_partition
  | None => GEMM_get_deps cfg node
  end.

(** The arguments of the node walked back to the boundary of the partition,
    and what [get_deps_from_src_partition] does once they are installed. *)
Definition remap_args (g : Graph) (src_partition : SourcePartition) (fuel : nat)
    (node : node_id) : result (list node_id) :=
  map_result (λ arg, arg ← as_node arg; find_partition_args g src_partition fuel arg)
             (node_args g node).

Definition resolve_and_restore (cfg : Config) (node : node_id)
    (src_partition : SourcePartition) (old_args : list Arg) (old_users : dict_id)
  : M (bool * list node_id) :=
  output ← reading (λ _, index (sp_output_nodes src_partition) 0);
  g ← get_graph;
  set_users node (n_users (node_of g output));;
  '(valid_deps, deps) ← GEMM_get_deps cfg node;
  set_args node old_args;;
  set_users node old_users;;
  let ret_deps :=
    if force_non_static_weights_for_f32_linear cfg
    then list_set_inter deps (sp_nodes src_partition)
    else list_set_union deps (sp_nodes src_partition) in
  mret (valid_deps, ret_deps).

(** [self.get_deps]: method dispatch on the class of the object. *)
Definition get_deps (cfg : Config) (fuel : nat) (node : node_id)
  : M (bool * list node_id) :=
  match family cfg with
  | Linear | Convolution => GEMM_get_deps cfg node
  | Addmm | MM => Addmm_get_deps cfg fuel node
  end.

(** [GEMMConfig.get_node_and_deps] *)
Definition get_node_and_deps (cfg : Config) (fuel : nat) (node : node_id)
  : M (list node_id) :=
  '(_, deps) ← get_deps cfg fuel node;
  mret ([node] ++ deps).

(** [GEMMConfig.check_constraints] *)
Definition GEMM_check_constraints (cfg : Config) (fuel : nat) (node : node_id)
  : M bool :=
  g ← get_graph;
  if negb (check_common_constraints cfg g node) then mret false
  else
    '(is_valid, _) ← get_deps cfg fuel node;
    mret is_valid.

(** The checks of [ConvolutionConfig.check_constraints] that follow the
    call of the base class. *)
Definition conv_constraints (cfg : Config) (g : Graph) (node : node_id) : result bool :=
  conv_stride ← index (node_args g node) 3;
  stride_len ← arg_len conv_stride;
  if 2 <? stride_len then Ret false
  else
    kernel_node ← get_input_node g node 1;
    kernel_node ← as_node kernel_node;
    let kernel_shape := get_shape g kernel_node in
    let weight_quant_params := QuantParams_from_weights g kernel_node in
    groups ← index (node_args g node) 8;
    is_transpose ← index (node_args g node) 6;
    precision ← _detect_precision cfg g node;
    if bool_decide (precision = DYNAMIC_QUANT)
       && (negb (stride_len =? 2) || is_depthwise_conv kernel_shape groups is_transpose)
    then Ret false
    else
      nonzero_output_padding ←
        (if truthy is_transpose then
           output_padding ← index (node_args g node) 7;
           output_padding ← as_ints output_padding;
           Ret (existsb (λ out_pad, negb (out_pad =? 0)%Z) output_padding)
         else Ret false);
      if (nonzero_output_padding : bool) then Ret false
      else
        match weight_quant_params with
        | Some qp =>
            if truthy is_transpose && per_channel qp then
              groups ← as_int groups;
              if (1 <? groups)%Z || negb (axis qp =? 1)%Z then Ret false
              else Ret true
            else Ret true
        | None => Ret true
        end.

(** [ConvolutionConfig.check_constraints] *)
Definition Conv_check_constraints (cfg : Config) (fuel : nat) (node : node_id)
  : M bool :=
  ok ← GEMM_check_constraints cfg fuel node;
  if negb ok then mret false
  else reading (λ g, conv_constraints cfg g node).

(** [self.check_constraints]: method dispatch on the class of the object. *)
Definition check_constraints (cfg : Config) (fuel : nat) (node : node_id) : M bool :=
  match family cfg with
  | Convolution => Conv_check_constraints cfg fuel node
  | Linear | Addmm | MM => GEMM_check_constraints cfg fuel node
  end.

(** The body of the tagging loop of [get_deps]. *)
Definition tag_body (g : Graph) (dep : node_id) : M unit :=
  if is_dequant g dep || is_quant g dep then tag_as_implicit_q_dq dep else mret tt.

(** The value that [GEMMConfig.get_deps] computes from the graph, before it
    tags, and the tags it leaves. *)
Definition GEMM_deps (cfg : Config) (g : Graph) (node : node_id)
  : result (bool * list node_id) :=
  precision ← _detect_precision cfg g node;
  if negb (mem precision (supported_precision_types cfg)) then Ret (false, [])
  else
    '(_, precision) ← _overwrite_precision cfg g node;
    '(valid_bias, bias_deps) ← _get_bias_deps cfg g node precision;
    '(valid_weight, weight_deps) ← _get_weight_deps cfg g node precision;
    '(valid_act, act_deps) ← _get_act_deps cfg g node precision;
    '(valid_output, output_deps) ← _get_output_deps cfg g node precision;
    Ret (valid_bias && valid_weight && valid_act && valid_output,
         bias_deps ++ weight_deps ++ act_deps ++ output_deps).

Definition is_qdq (g : Graph) (dep : node_id) : bool :=
  is_dequant g dep || is_quant g dep.

Definition tagged (deps : list node_id) (st : State) : State :=
  mkState (graph st)
    (list_to_set (filter (λ dep, is_qdq (graph st) dep = true) deps)
       ∪ implicit_q_dq st)
    (src_partitions st).

(** The partitions a call works with: the cached ones, or the ones it
    computes when nothing is cached. *)
Definition effective_partitions (st : State) : list (list SourcePartition) :=
  match src_partitions st with
  | Some partitions => partitions
  | None => get_source_partitions (graph st)
  end.

End Configs.

(** The step of the search of [AddmmConfig.get_deps]. *)
Definition pick_partition (node : node_id) (found : option SourcePartition)
    (partition : SourcePartition) : option SourcePartition :=
  if mem node (sp_nodes partition) then Some partition else found.

(** A config with the override switched on or off. *)
Definition set_force (force : bool) (cfg : Config) : Config :=
  mkConfig (family cfg) (weight_idx cfg) (bias_idx cfg) (act_idx cfg)
    (fused_acts cfg) (enabled_precision_types cfg) force.

(** A graph whose nodes are numbered in topological order. *)
Definition topological (g : Graph) : Prop :=
  ∀ n m, m ∈ all_input_nodes g n → m < n.

(** Every operand is a node of the graph. *)
Definition closed (g : Graph) : Prop :=
  ∀ n m, m ∈ all_input_nodes g n → is_Some (g_nodes g !! m).

(** Whoever is listed in [users] of a node has that node among its
    operands. *)
Definition users_sound (g : Graph) : Prop :=
  ∀ n u, is_Some (g_nodes g !! n) → u ∈ node_users g n → n ∈ all_input_nodes g u.

(** A graph as fx keeps it: [Graph.lint] checks the order and the operands,
    and the setters of [args] and [kwargs] keep [users] in step. *)
Definition well_formed (g : Graph) : Prop :=
  topological g ∧ closed g ∧ users_sound g.

(** The same, as a test that can be run on a graph. *)
Definition well_formedb (g : Graph) : bool :=
  forallb (λ '(n, nd),
             forallb (λ m, (m <? n) && bool_decide (is_Some (g_nodes g !! m)))
                     (all_input_nodes g n)
             && forallb (λ u, mem n (all_input_nodes g u)) (node_users g n))
          (map_to_list (g_nodes g)).

(** ** Concrete graphs

    An instance of the collaborators that decides every predicate from the
    name of the target of a node, and small graphs on which the entry points
    can be run. *)

Definition has_target (names : list string) (g : Graph) (n : node_id) : bool :=
  mem (n_target (node_of g n)) names.

Definition ex_is_dequant : Graph → node_id → bool :=
  has_target ["dequantize_per_tensor.default"; "dequantize_per_tensor.tensor";
              "dequantize_per_channel.default"; "dequantize_per_channel_group.default"].

Definition ex_is_quant : Graph → node_id → bool :=
  has_target ["quantize_per_tensor.default"; "quantize_per_tensor.tensor";
              "quantize_per_channel.default"].

Definition ex_is_getitem : Graph → node_id → bool := has_target ["getitem"].

Definition ex_is_qparam : Graph → node_id → bool := has_target ["choose_qparams.tensor"].

(** [is_dynamic_qdq]: a q/dq node whose arguments 1 and 2, the scale and
    the zero point, are both getitem nodes whose first input node is a
    choose_qparams node. Where the Python predicate would raise (a q/dq
    node with fewer than three arguments, a getitem node without input
    nodes) this instance answers [false]; the graphs below have no such
    activation. *)
Definition ex_is_dynamic_qdq (g : Graph) (n : node_id) : bool :=
  (ex_is_quant g n || ex_is_dequant g n)
  && match node_args g n with
     | _ :: ANode scale :: ANode zp :: _ =>
         ex_is_getitem g scale && ex_is_getitem g zp
         && match all_input_nodes g scale, all_input_nodes g zp with
            | scale_choose_qparam :: _, zp_choose_qparam :: _ =>
                ex_is_qparam g scale_choose_qparam && ex_is_qparam g zp_choose_qparam
            | _, _ => false
            end
     | _ => false
     end.

Definition example_utils (partitions : list (list SourcePartition)) : QuantUtils := {|
  is_dequant := ex_is_dequant;
  is_quant := ex_is_quant;
  is_dynamic_qdq := ex_is_dynamic_qdq;
  is_per_tensor :=
    has_target ["dequantize_per_tensor.default"; "dequantize_per_tensor.tensor";
                "quantize_per_tensor.default"; "quantize_per_tensor.tensor"];
  is_per_channel :=
    has_target ["dequantize_per_channel.default"; "quantize_per_channel.default"];
  is_per_channel_group := has_target ["dequantize_per_channel_group.default"];
  is_affine_qdq := λ _ _, false;
  is_qparam := ex_is_qparam;
  is_getitem := ex_is_getitem;
  is_param_node := λ g n, bool_decide (n_op (node_of g n) = "get_attr");
  extract_qdq_affine_op_args_for_decomposed_ops := node_args;
  format_target_name := λ name, name;
  check_common_constraints := λ _ _ _, true;
  get_shape := λ _ _, [];
  QuantParams_from_weights := λ _ _, None;
  is_depthwise_conv := λ _ _ _, false;
  get_source_partitions := λ _, partitions;
|}.

(** A graph from the list of its nodes: the dictionary of consumers of node
    [n] is the object [n], and holds the nodes that have [n] among their
    arguments, in the order of the list. *)
Definition node_decl : Type := node_id * string * string * list Arg.

Definition uses (n : node_id) (d : node_decl) : bool := mem (ANode n) (snd d).

Definition build_graph (decls : list node_decl) : Graph :=
  mkGraph
    (list_to_map ((λ d : node_decl,
                     let '(n, op, target, args) := d in
                     (n, mkNode op target args n)) <$> decls))
    (list_to_map ((λ d : node_decl,
                     let '(n, _, _, _) := d in
                     (n, (λ d' : node_decl, d'.1.1.1) <$> filter (λ d', uses n d' = true) decls))
                  <$> decls)).

Definition initial_state (g : Graph) : State := mkState g ∅ None.

(** [linear(x, w, b)] followed by [relu], exported as
    [addmm(b, x, permute_copy(w))]: the source partition of the linear call
    holds the permutation and the addmm node, and the parameters enter it
    from outside. *)
Definition addmm_graph : Graph := build_graph [
  (0, "placeholder", "x", []);
  (1, "get_attr", "p_weight", []);
  (2, "get_attr", "p_bias", []);
  (3, "call_function", "permute_copy.default", [ANode 1; AInts [1; 0]%Z]);
  (4, "call_function", "addmm.default", [ANode 2; ANode 0; ANode 3]);
  (5, "call_function", "relu.default", [ANode 4])
].

Definition addmm_partition : SourcePartition :=
  mkSourcePartition [3; 4] [0; 1; 2] [4].

(** The same call where the activation does not enter the partition at a
    declared input. *)
Definition addmm_partition_bad_act : SourcePartition :=
  mkSourcePartition [3; 4] [1; 2] [4].

(** A dynamically quantized linear call: the activation goes through
    choose_qparams, quantize and dequantize; the weight is dequantized per
    channel. *)
Definition dq_linear_decls (weight_dq : node_decl) (zp_item : node_decl) : list node_decl := [
  (0, "placeholder", "x", []);
  (1, "call_function", "choose_qparams.tensor", [ANode 0; AInt (-128); AInt 127]);
  (2, "call_function", "getitem", [ANode 1; AInt 0]);
  zp_item;
  (4, "call_function", "quantize_per_tensor.tensor",
      [ANode 0; ANode 2; ANode 3; AInt (-128); AInt 127]);
  (5, "call_function", "dequantize_per_tensor.tensor",
      [ANode 4; ANode 2; ANode 3; AInt (-128); AInt 127]);
  (6, "get_attr", "p_weight", []);
  (7, "get_attr", "p_scales", []);
  (8, "get_attr", "p_zero_points", []);
  weight_dq;
  (10, "get_attr", "p_bias", []);
  (11, "call_function", "linear.default", [ANode 5; ANode 9; ANode 10]);
  (12, "call_function", "split.default", [ANode 0])
].

Definition zp_from_choose_qparams : node_decl :=
  (3, "call_function", "getitem", [ANode 1; AInt 1]).

Definition per_channel_weight : node_decl :=
  (9, "call_function", "dequantize_per_channel.default",
      [ANode 6; ANode 7; ANode 8; AInt 0; AInt (-127); AInt 127]).

(** The zero points are optional in the schema of the operator. *)
Definition per_channel_weight_no_zp : node_decl :=
  (9, "call_function", "dequantize_per_channel.default",
      [ANode 6; ANode 7; ANone; AInt 0; AInt (-127); AInt 127]).

Definition per_tensor_weight : node_decl :=
  (9, "call_function", "dequantize_per_tensor.default",
      [ANode 6; AInt 1; AInt 0; AInt (-127); AInt 127]).

Definition dq_linear_graph : Graph :=
  build_graph (dq_linear_decls per_channel_weight zp_from_choose_qparams).

(** A dynamically quantized linear call in which the dequantize node of the
    activation takes scale and zero point from choose_qparams, while the
    quantize node takes its zero point from a getitem node over another
    operator. *)
Definition dq_linear_graph_foreign_zp : Graph := build_graph [
  (0, "placeholder", "x", []);
  (1, "call_function", "choose_qparams.tensor", [ANode 0; AInt (-128); AInt 127]);
  (2, "call_function", "getitem", [ANode 1; AInt 0]);
  (3, "call_function", "getitem", [ANode 1; AInt 1]);
  (4, "call_function", "split.default", [ANode 0]);
  (5, "call_function", "getitem", [ANode 4; AInt 1]);
  (6, "call_function", "quantize_per_tensor.tensor",
      [ANode 0; ANode 2; ANode 5; AInt (-128); AInt 127]);
  (7, "call_function", "dequantize_per_tensor.tensor",
      [ANode 6; ANode 2; ANode 3; AInt (-128); AInt 127]);
  (8, "get_attr", "p_weight", []);
  (9, "get_attr", "p_scales", []);
  (10, "get_attr", "p_zero_points", []);
  (11, "call_function", "dequantize_per_channel.default",
      [ANode 8; ANode 9; ANode 10; AInt 0; AInt (-127); AInt 127]);
  (12, "get_attr", "p_bias", []);
  (13, "call_function", "linear.default", [ANode 7; ANode 11; ANode 12])
].

Definition dq_linear_graph_no_zp : Graph :=
  build_graph (dq_linear_decls per_channel_weight_no_zp zp_from_choose_qparams).

Definition dq_linear_graph_per_tensor : Graph :=
  build_graph (dq_linear_decls per_tensor_weight zp_from_choose_qparams).

Definition all_precisions : list ConfigPrecisionType :=
  [FP32; STATIC_QUANT; DYNAMIC_QUANT].

(** A convolution over three spatial dimensions. *)
Definition conv3d_graph : Graph := build_graph [
  (0, "placeholder", "x", []);
  (1, "get_attr", "p_weight", []);
  (2, "get_attr", "p_bias", []);
  (3, "call_function", "convolution.default",
      [ANode 0; ANode 1; ANode 2; AInts [1; 1; 1]%Z; AInts [0; 0; 0]%Z;
       AInts [1; 1; 1]%Z; ABool false; AInts [0; 0; 0]%Z; AInt 1])
].

(** A full-precision linear call without bias, followed by relu. *)
Definition fp32_linear_graph : Graph := build_graph [
  (0, "placeholder", "x", []);
  (1, "get_attr", "p_weight", []);
  (2, "call_function", "linear.default", [ANode 0; ANode 1]);
  (3, "call_function", "relu.default", [ANode 2])
].

(** A statically quantized linear call: quantize and dequantize around the
    activation, a per-tensor dequantized weight, relu and quantize after. *)
Definition static_linear_graph : Graph := build_graph [
  (0, "placeholder", "x", []);
  (1, "call_function", "quantize_per_tensor.default", [ANode 0; AInt 1; AInt 0]);
  (2, "call_function", "dequantize_per_tensor.default", [ANode 1; AInt 1; AInt 0]);
  (3, "get_attr", "p_weight", []);
  (4, "call_function", "dequantize_per_tensor.default", [ANode 3; AInt 1; AInt 0]);
  (5, "call_function", "linear.default", [ANode 2; ANode 4]);
  (6, "call_function", "relu.default", [ANode 5]);
  (7, "call_function", "quantize_per_tensor.default", [ANode 6; AInt 1; AInt 0])
].


(** A convolution over two spatial dimensions. *)
Definition conv2d_graph : Graph := build_graph [
  (0, "placeholder", "x", []);
  (1, "get_attr", "p_weight", []);
  (2, "get_attr", "p_bias", []);
  (3, "call_function", "convolution.default",
      [ANode 0; ANode 1; ANode 2; AInts [1; 1]%Z; AInts [0; 0]%Z;
       AInts [1; 1]%Z; ABool false; AInts [0; 0]%Z; AInt 1])
].

(** An addmm node whose bias is also its activation: two distinct node
    operands. *)
Definition addmm_shared_operand_graph : Graph := build_graph [
  (0, "placeholder", "x", []);
  (1, "get_attr", "p_weight", []);
  (2, "call_function", "addmm.default", [ANode 0; ANode 0; ANode 1])
].

(** The collaborators of the examples; the graph of the addmm example has
    one source partition. *)
Definition ex_Q : QuantUtils := example_utils [[addmm_partition]].

(** * Properties *)

(** ** The monad *)

Ltac unfold_M :=
  unfold mbind, M_bind, mret, M_ret, reading, get_graph, set_args, set_users,
    tag_as_implicit_q_dq, get_src_partitions, set_src_partitions in *.

Lemma result_bind_Ret {A B} (r : result A) (k : A → result B) (b : B) :
  r ≫= k = Ret b → ∃ a, r = Ret a ∧ k a = Ret b.
Proof. destruct r; simpl; intros H; try discriminate. eauto. Qed.

Lemma M_bind_Ret {A B} (m : M A) (k : A → M B) (b : B) (st st' : State) :
  (m ≫= k) st = (Ret b, st') →
  ∃ a st1, m st = (Ret a, st1) ∧ k a st1 = (Ret b, st').
Proof.
  unfold mbind, M_bind. destruct (m st) as [[a| |] st1]; intros H; try discriminate.
  eauto.
Qed.

Lemma graph_determined_bind {A B} (m : M A) (k : A → M B) :
  graph_determined m → (∀ a, graph_determined (k a)) → graph_determined (m ≫= k).
Proof.
  intros Hm Hk st st' Hg. unfold mbind, M_bind.
  destruct (Hm st st' Hg) as [H1 H2].
  destruct (m st) as [r st1], (m st') as [r' st1']; simpl in *; subst r'.
  destruct r; simpl; auto. by apply Hk.
Qed.

Lemma graph_determined_reading {A} (f : Graph → result A) : graph_determined (reading f).
Proof. intros st st' Hg. unfold reading; simpl. by rewrite Hg. Qed.

Lemma graph_determined_ret {A} (a : A) : graph_determined (mret a).
Proof. by intros st st' Hg. Qed.

Lemma graph_determined_write_args node a : graph_determined (write_args node a).
Proof. intros st st' Hg. unfold write_args; simpl. by rewrite Hg. Qed.

Lemma graph_determined_users_pop node n : graph_determined (users_pop node n).
Proof.
  intros st st' Hg. unfold users_pop, with_dicts. rewrite Hg.
  by destruct (mem _ _).
Qed.

Lemma graph_determined_users_setdefault node n :
  graph_determined (users_setdefault node n).
Proof. intros st st' Hg. unfold users_setdefault, with_dicts. by rewrite Hg. Qed.

Lemma graph_determined_set_users node d : graph_determined (set_users node d).
Proof. intros st st' Hg. unfold set_users; simpl. by rewrite Hg. Qed.

Lemma graph_determined_tag node : graph_determined (tag_as_implicit_q_dq node).
Proof. by intros st st' Hg. Qed.

Lemma for_each_graph_determined {A} (l : list A) (body : A → M unit) :
  (∀ x, graph_determined (body x)) → graph_determined (for_each l body).
Proof.
  intros Hb. induction l as [|x l IH]; simpl; [apply graph_determined_ret|].
  apply graph_determined_bind; auto.
Qed.

Lemma keeps_graph_reading {A} (f : Graph → result A) : keeps_graph (reading f).
Proof. by intros st. Qed.

Lemma keeps_cache_reading {A} (f : Graph → result A) : keeps_cache (reading f).
Proof. by intros st. Qed.

Lemma grows_tags_reading {A} (f : Graph → result A) : grows_tags (reading f).
Proof. by intros st. Qed.

Lemma keeps_graph_ret {A} (a : A) : keeps_graph (mret a).
Proof. by intros st. Qed.

Lemma keeps_cache_ret {A} (a : A) : keeps_cache (mret a).
Proof. by intros st. Qed.

Lemma grows_tags_ret {A} (a : A) : grows_tags (mret a).
Proof. by intros st. Qed.

Lemma keeps_cache_write_args node a : keeps_cache (write_args node a).
Proof. by intros st. Qed.

Lemma keeps_cache_users_pop node n : keeps_cache (users_pop node n).
Proof. intros st. unfold users_pop. by destruct (mem _ _). Qed.

Lemma keeps_cache_users_setdefault node n : keeps_cache (users_setdefault node n).
Proof. by intros st. Qed.

Lemma keeps_cache_set_users node d : keeps_cache (set_users node d).
Proof. by intros st. Qed.

Lemma grows_tags_write_args node a : grows_tags (write_args node a).
Proof. by intros st. Qed.

Lemma grows_tags_users_pop node n : grows_tags (users_pop node n).
Proof. intros st. unfold users_pop. by destruct (mem _ _). Qed.

Lemma grows_tags_users_setdefault node n : grows_tags (users_setdefault node n).
Proof. by intros st. Qed.

Lemma grows_tags_set_users node d : grows_tags (set_users node d).
Proof. by intros st. Qed.

Create HintDb frame discriminated.
#[global] Hint Resolve graph_determined_reading graph_determined_ret
  graph_determined_write_args graph_determined_users_pop
  graph_determined_users_setdefault graph_determined_set_users graph_determined_tag
  keeps_graph_reading keeps_cache_reading grows_tags_reading
  keeps_graph_ret keeps_cache_ret grows_tags_ret
  keeps_cache_write_args keeps_cache_users_pop keeps_cache_users_setdefault
  keeps_cache_set_users
  grows_tags_write_args grows_tags_users_pop grows_tags_users_setdefault
  grows_tags_set_users : frame.

(** Goes through a computation written with [≫=], [if] and pattern
    bindings, leaving the calls it does not know. *)
Ltac frame_step bind_lemma :=
  repeat first
    [ solve [auto with frame]
    | apply bind_lemma; [| intros ?]
    | progress (unfold get_graph)
    | match goal with
      | |- context [match ?x with (_, _) => _ end] => destruct x
      | |- context [if ?b then _ else _] => destruct b
      end ].

Lemma keeps_graph_bind {A B} (m : M A) (k : A → M B) :
  keeps_graph m → (∀ a, keeps_graph (k a)) → keeps_graph (m ≫= k).
Proof.
  intros Hm Hk st. unfold mbind, M_bind. specialize (Hm st).
  destruct (m st) as [[a| |] st1]; simpl in *; try done.
  by rewrite Hk.
Qed.

Lemma keeps_cache_bind {A B} (m : M A) (k : A → M B) :
  keeps_cache m → (∀ a, keeps_cache (k a)) → keeps_cache (m ≫= k).
Proof.
  intros Hm Hk st. unfold mbind, M_bind. specialize (Hm st).
  destruct (m st) as [[a| |] st1]; simpl in *; try done.
  by rewrite Hk.
Qed.

Lemma grows_tags_bind {A B} (m : M A) (k : A → M B) :
  grows_tags m → (∀ a, grows_tags (k a)) → grows_tags (m ≫= k).
Proof.
  intros Hm Hk st. unfold mbind, M_bind. specialize (Hm st).
  destruct (m st) as [[a| |] st1]; simpl in *; try done.
  etrans; [exact Hm | apply Hk].
Qed.

Lemma for_each_keeps_graph {A} (l : list A) (body : A → M unit) :
  (∀ x, keeps_graph (body x)) → keeps_graph (for_each l body).
Proof.
  intros Hb. induction l as [|x l IH]; simpl; [done|].
  apply keeps_graph_bind; auto.
Qed.

Lemma for_each_keeps_cache {A} (l : list A) (body : A → M unit) :
  (∀ x, keeps_cache (body x)) → keeps_cache (for_each l body).
Proof.
  intros Hb. induction l as [|x l IH]; simpl; [done|].
  apply keeps_cache_bind; auto.
Qed.

Lemma for_each_grows_tags {A} (l : list A) (body : A → M unit) :
  (∀ x, grows_tags (body x)) → grows_tags (for_each l body).
Proof.
  intros Hb. induction l as [|x l IH]; simpl; [by intros st|].
  apply grows_tags_bind; auto.
Qed.

(** ** The dictionaries of consumers *)

Lemma with_dicts_id st : with_dicts (g_dicts (graph st)) st = st.
Proof. by destruct st as [[nodes dicts] tags cache]. Qed.

Lemma not_elem_of_drop_user node users : node ∉ drop_user node users.
Proof. unfold drop_user. rewrite list_elem_of_filter. tauto. Qed.

Lemma elem_of_add_user node users : node ∈ add_user node users.
Proof.
  unfold add_user, mem. case_bool_decide; [done|].
  apply elem_of_app. right. by left.
Qed.

Lemma drop_user_absent node users : node ∉ users → drop_user node users = users.
Proof.
  intros Hn. unfold drop_user. induction users as [|u l IH]; [done|].
  apply not_elem_of_cons in Hn as [Hne Hl].
  rewrite filter_cons_True by done. by rewrite IH.
Qed.

Lemma add_user_absent node users : node ∉ users → add_user node users = users ++ [node].
Proof. intros Hn. unfold add_user, mem. by rewrite bool_decide_eq_false_2. Qed.

Lemma add_user_present node users : node ∈ users → add_user node users = users.
Proof. intros Hn. unfold add_user, mem. by rewrite bool_decide_eq_true_2. Qed.

Lemma drop_user_snoc node users : drop_user node (users ++ [node]) = drop_user node users.
Proof.
  unfold drop_user. rewrite filter_app, filter_cons_False, filter_nil by tauto.
  by rewrite app_nil_r.
Qed.

Lemma drop_user_idemp node users :
  drop_user node (drop_user node users) = drop_user node users.
Proof. apply drop_user_absent, not_elem_of_drop_user. Qed.

Lemma add_user_idemp node users : add_user node (add_user node users) = add_user node users.
Proof. apply add_user_present, elem_of_add_user. Qed.

Lemma drop_add_drop node users :
  drop_user node (add_user node (drop_user node users)) = drop_user node users.
Proof.
  rewrite (add_user_absent _ _ (not_elem_of_drop_user node users)).
  by rewrite drop_user_snoc, drop_user_idemp.
Qed.

Lemma drop_add_absent node users :
  node ∉ users → drop_user node (add_user node users) = users.
Proof.
  intros Hn. rewrite add_user_absent, drop_user_snoc by done.
  by apply drop_user_absent.
Qed.

(** The loop of [pop]s returns exactly when the operands hold distinct
    dictionaries that all have the node; it then takes the node out of
    each. *)
Lemma users_pop_loop node l st st' :
  for_each l (users_pop node) st = (Ret tt, st') →
  let dicts := g_dicts (graph st) in
  let ds := operand_dicts (graph st) l in
  NoDup ds
  ∧ (∀ d, d ∈ ds → node ∈ users_of dicts d)
  ∧ ∃ dicts', st' = with_dicts dicts' st
      ∧ ∀ d, dicts' !! d = if decide (d ∈ ds)
                           then Some (drop_user node (users_of dicts d))
                           else dicts !! d.
Proof.
  revert st. induction l as [|n l IH]; intros st H; simpl in *.
  { injection H as <-. split; [constructor|]. split; [intros d Hd; by inversion Hd|].
    exists (g_dicts (graph st)). split; [by rewrite with_dicts_id|].
    done. }
  unfold mbind, M_bind in H. unfold users_pop at 1 in H. unfold mem in H.
  case_bool_decide as Hin; [|discriminate].
  set (d0 := n_users (node_of (graph st) n)) in *.
  apply IH in H as (Hnd & Hmem & dicts' & -> & Hlk). clear IH. simpl in *.
  change (operand_dicts _ l) with (operand_dicts (graph st) l) in *.
  assert (d0 ∉ operand_dicts (graph st) l) as Hd0.
  { intros Hd. apply Hmem in Hd. unfold users_of in Hd.
    rewrite lookup_insert_eq in Hd. simpl in Hd.
    by apply not_elem_of_drop_user in Hd. }
  split; [by constructor|]. split.
  { intros d Hd. apply elem_of_cons in Hd as [->|Hd]; [done|].
    specialize (Hmem d Hd). unfold users_of in Hmem.
    rewrite lookup_insert_ne in Hmem by (intros <-; done). done. }
  exists dicts'. split; [done|]. intros d. rewrite Hlk.
  destruct (decide (d = d0)) as [->|Hne].
  - rewrite decide_False by done. rewrite decide_True by (by left).
    by rewrite lookup_insert_eq.
  - unfold users_of. rewrite lookup_insert_ne by done.
    destruct (decide (d ∈ operand_dicts (graph st) l)) as [Hd|Hd].
    + by rewrite decide_True by (by right).
    + rewrite decide_False; [done|]. intros Hc. apply elem_of_cons in Hc as [?|?]; done.
Qed.

Lemma users_pop_loop_returns node l st :
  NoDup (operand_dicts (graph st) l) →
  (∀ d, d ∈ operand_dicts (graph st) l → node ∈ users_of (g_dicts (graph st)) d) →
  ∃ st', for_each l (users_pop node) st = (Ret tt, st').
Proof.
  revert st. induction l as [|n l IH]; intros st Hnd Hmem; simpl in *; [eauto|].
  unfold mbind, M_bind. unfold users_pop at 1, mem.
  apply NoDup_cons in Hnd as [Hd0 Hnd].
  rewrite bool_decide_eq_true_2 by (apply Hmem; by left).
  apply IH; simpl; [done|].
  intros d Hd. unfold users_of. rewrite lookup_insert_ne by (intros <-; done).
  apply Hmem. by right.
Qed.

(** The loop of [setdefault]s always returns, and puts the node into each
    dictionary. *)
Lemma users_setdefault_loop node l st :
  let dicts := g_dicts (graph st) in
  let ds := operand_dicts (graph st) l in
  ∃ dicts', for_each l (users_setdefault node) st = (Ret tt, with_dicts dicts' st)
    ∧ ∀ d, dicts' !! d = if decide (d ∈ ds)
                         then Some (add_user node (users_of dicts d))
                         else dicts !! d.
Proof.
  revert st. induction l as [|n l IH]; intros st; simpl.
  { exists (g_dicts (graph st)). split; [by rewrite with_dicts_id|].
    done. }
  unfold mbind, M_bind. unfold users_setdefault at 1.
  set (d0 := n_users (node_of (graph st) n)).
  match goal with |- context [for_each l _ ?s] => destruct (IH s) as (dicts' & -> & Hlk) end.
  simpl in Hlk. change (operand_dicts _ l) with (operand_dicts (graph st) l) in Hlk.
  exists dicts'. split; [done|]. intros d. rewrite Hlk.
  destruct (decide (d = d0)) as [->|Hne].
  - rewrite (decide_True (P := d0 ∈ d0 :: _)) by (by left).
    unfold users_of at 1. rewrite lookup_insert_eq. simpl.
    destruct (decide (d0 ∈ operand_dicts (graph st) l)); [by rewrite add_user_idemp | done].
  - unfold users_of at 1. rewrite !lookup_insert_ne by done.
    destruct (decide (d ∈ operand_dicts (graph st) l)) as [Hd|Hd].
    + by rewrite decide_True by (by right).
    + rewrite decide_False; [done|]. intros Hc. apply elem_of_cons in Hc as [?|?]; done.
Qed.

(** The setter of [args]: when it returns, and when it does. *)
Lemma set_args_Ret node a st st' :
  set_args node a st = (Ret tt, st') →
  let g := graph st in
  let olds := operand_dicts g (all_input_nodes g node) in
  let news := operand_dicts g (arg_nodes a) in
  NoDup olds
  ∧ (∀ d, d ∈ olds → node ∈ users_of (g_dicts g) d)
  ∧ ∃ dicts',
      st' = mkState (mkGraph (alter (with_args a) node (g_nodes g)) dicts')
                    (implicit_q_dq st) (src_partitions st)
      ∧ ∀ d, dicts' !! d = moved node olds news (g_dicts g) d.
Proof.
  unfold set_args. intros H.
  apply M_bind_Ret in H as (g & s0 & Hg & H).
  unfold get_graph, reading in Hg. injection Hg as <- <-.
  apply M_bind_Ret in H as ([] & s1 & Hpop & H).
  apply users_pop_loop in Hpop as (Hnd & Hmem & dicts1 & -> & Hlk1).
  apply M_bind_Ret in H as ([] & s2 & Hadd & H).
  destruct (users_setdefault_loop node (arg_nodes a) (with_dicts dicts1 st))
    as (dicts2 & Hadd' & Hlk2).
  rewrite Hadd' in Hadd. injection Hadd as <-.
  unfold write_args in H. injection H as <-. simpl in *.
  split; [done|]. split; [done|].
  exists dicts2. split; [done|]. intros d. rewrite Hlk2. unfold moved.
  change (operand_dicts _ (arg_nodes a)) with (operand_dicts (graph st) (arg_nodes a)).
  unfold users_of at 1. rewrite !Hlk1.
  destruct (decide (d ∈ operand_dicts (graph st) (arg_nodes a)));
    destruct (decide (d ∈ operand_dicts (graph st) (all_input_nodes (graph st) node)));
    done.
Qed.

Lemma set_args_returns node a st :
  let g := graph st in
  let olds := operand_dicts g (all_input_nodes g node) in
  NoDup olds →
  (∀ d, d ∈ olds → node ∈ users_of (g_dicts g) d) →
  ∃ st', set_args node a st = (Ret tt, st').
Proof.
  intros g olds Hnd Hmem. unfold set_args, get_graph, reading.
  unfold mbind at 1. unfold M_bind.
  destruct (users_pop_loop_returns node (all_input_nodes g node) st Hnd Hmem)
    as (s1 & Hpop).
  unfold mbind at 1. unfold M_bind. fold g. rewrite Hpop.
  destruct (users_pop_loop _ _ _ _ Hpop) as (_ & _ & dicts1 & -> & _).
  unfold mbind at 1. unfold M_bind.
  destruct (users_setdefault_loop node (arg_nodes a) (with_dicts dicts1 st))
    as (dicts2 & -> & _).
  unfold write_args. eauto.
Qed.

Lemma moved_ext node olds olds' news news' dicts d :
  (∀ d, d ∈ olds ↔ d ∈ olds') → (∀ d, d ∈ news ↔ d ∈ news') →
  moved node olds news dicts d = moved node olds' news' dicts d.
Proof.
  intros Ho Hn. unfold moved.
  destruct (decide (d ∈ news)) as [H1|H1], (decide (d ∈ news')) as [H1'|H1'];
    try (apply Hn in H1; done); try (apply Hn in H1'; done);
    destruct (decide (d ∈ olds)) as [H2|H2], (decide (d ∈ olds')) as [H2'|H2'];
    try (apply Ho in H2; done); try (apply Ho in H2'; done); done.
Qed.

Lemma users_of_moved node olds news dicts dicts1 d :
  (∀ d, dicts1 !! d = moved node olds news dicts d) →
  users_of dicts1 d =
  if decide (d ∈ news)
  then add_user node (if decide (d ∈ olds)
                      then drop_user node (users_of dicts d) else users_of dicts d)
  else if decide (d ∈ olds) then drop_user node (users_of dicts d)
  else users_of dicts d.
Proof.
  intros H1. unfold users_of at 1. rewrite H1. unfold moved.
  by destruct (decide (d ∈ news)), (decide (d ∈ olds)).
Qed.

(** Swapping the operands and swapping them back: the node is still in the
    dictionaries of the operands, at the end, and in no other dictionary
    that did not have it. *)
Lemma moved_back node olds news dicts dicts1 dicts2 d :
  (∀ d, dicts1 !! d = moved node olds news dicts d) →
  (∀ d, dicts2 !! d = moved node news olds dicts1 d) →
  users_of dicts2 d =
  if decide (d ∈ olds) then add_user node (drop_user node (users_of dicts d))
  else if decide (d ∈ news) then drop_user node (add_user node (users_of dicts d))
  else users_of dicts d.
Proof.
  intros H1 H2.
  rewrite (users_of_moved node news olds dicts1 dicts2 d H2).
  rewrite (users_of_moved node olds news dicts dicts1 d H1).
  destruct (decide (d ∈ olds)), (decide (d ∈ news)); simpl; try done.
  by rewrite drop_add_drop.
Qed.

(** Swapping a second time gives the dictionaries of the first swap. *)
Lemma moved_again node olds news dicts dicts1 dicts2 dicts3 :
  (∀ d, d ∈ news → d ∉ olds → node ∉ users_of dicts d) →
  (∀ d, dicts1 !! d = moved node olds news dicts d) →
  (∀ d, dicts2 !! d = moved node news olds dicts1 d) →
  (∀ d, dicts3 !! d = moved node olds news dicts2 d) →
  dicts3 = dicts1.
Proof.
  intros Hfresh H1 H2 H3. apply (map_eq (M := gmap nat)). intros d.
  change nat with dict_id in d.
  pose proof (moved_back node olds news dicts dicts1 dicts2 d H1 H2) as Hb.
  rewrite H3, H1. unfold moved at 1 2. rewrite Hb. clear Hb.
  destruct (decide (d ∈ news)) as [Hn|Hn], (decide (d ∈ olds)) as [Ho|Ho]; simpl.
  - by rewrite drop_add_drop.
  - by rewrite (drop_add_absent _ _ (Hfresh d Hn Ho)).
  - by rewrite drop_add_drop.
  - rewrite H2. unfold moved. rewrite !decide_False by done. rewrite H1.
    unfold moved. by rewrite !decide_False by done.
Qed.

Lemma elem_of_operand_dicts g l d :
  d ∈ operand_dicts g l ↔ ∃ m, m ∈ l ∧ d = n_users (node_of g m).
Proof.
  unfold operand_dicts. rewrite list_elem_of_fmap. split; intros (m & ? & ?); eauto.
Qed.

Lemma elem_of_arg_nodes a m : m ∈ arg_nodes a ↔ ANode m ∈ a.
Proof.
  unfold arg_nodes. rewrite list_elem_of_omap. split.
  - intros (x & Hx & Hm). destruct x; try discriminate. by injection Hm as ->.
  - intros H. by exists (ANode m).
Qed.

(** ** Graphs during the swap *)

Lemma node_of_swapped g dicts node a d m :
  m ≠ node →
  node_of (mkGraph (alter (with_users d) node (alter (with_args a) node (g_nodes g)))
                   dicts) m
  = node_of g m.
Proof.
  intros Hne. unfold node_of. simpl.
  rewrite !lookup_total_alt, !lookup_alter_ne by done. done.
Qed.

Lemma node_args_swapped g dicts node a d :
  is_Some (g_nodes g !! node) →
  node_args (mkGraph (alter (with_users d) node (alter (with_args a) node (g_nodes g)))
                     dicts) node
  = a.
Proof.
  intros [nd Hnd]. unfold node_args, node_of. simpl.
  by rewrite lookup_total_alt, !lookup_alter_eq, Hnd.
Qed.

Lemma node_args_in_graph g node :
  node_args g node ≠ [] → is_Some (g_nodes g !! node).
Proof.
  unfold node_args, node_of. rewrite lookup_total_alt.
  destruct (g_nodes g !! node); [eauto | done].
Qed.

Lemma elem_of_input_nodes_of a m : m ∈ input_nodes_of [] a ↔ ANode m ∈ a.
Proof.
  split.
  - revert m. generalize (@nil node_id).
    induction a as [|x a IH]; intros seen m H; simpl in H; [by inversion H|].
    destruct x as [k| | | |]; try (right; by eapply IH).
    case_bool_decide; [right; by eapply IH|].
    apply elem_of_cons in H as [->|H]; [by left | right; by eapply IH].
  - intros H.
    assert (∀ seen, ANode m ∈ a → m ∈ seen ∨ m ∈ input_nodes_of seen a) as Hc.
    { clear H. induction a as [|x a IH]; intros seen H; [by inversion H|].
      apply elem_of_cons in H as [<-|H]; simpl.
      - case_bool_decide; [by left | right; by left].
      - destruct x as [k| | | |]; try by apply IH.
        case_bool_decide; [by apply IH|].
        destruct (IH (k :: seen) H) as [Hs|Hi]; [|right; by right].
        apply elem_of_cons in Hs as [->|Hs]; [right; by left | by left]. }
    destruct (Hc [] H) as [Hs|]; [by inversion Hs | done].
Qed.

Lemma arg_nodes_fmap l : arg_nodes (ANode <$> l) = l.
Proof. induction l as [|m l IH]; [done|]. unfold arg_nodes in *. simpl. by f_equal. Qed.

(** The dictionaries of a list of operands are the same during the swap as
    before it, when the node is not one of them. *)
Lemma operand_dicts_swapped g dicts node a d l l' x :
  (∀ m, m ∈ l ↔ m ∈ l') → node ∉ l →
  x ∈ operand_dicts
        (mkGraph (alter (with_users d) node (alter (with_args a) node (g_nodes g)))
                 dicts) l
  ↔ x ∈ operand_dicts g l'.
Proof.
  intros Hl Hn. rewrite !elem_of_operand_dicts. split.
  - intros (m & Hm & ->). exists m. split; [by apply Hl|].
    apply f_equal, node_of_swapped. by intros ->.
  - intros (m & Hm & ->). apply Hl in Hm. exists m. split; [done|].
    symmetry. apply f_equal, node_of_swapped. by intros ->.
Qed.

Lemma map_result_Forall2 {A B} (f : A → result B) l r :
  map_result f l = Ret r → Forall2 (λ a b, f a = Ret b) l r.
Proof.
  revert r. induction l as [|a l IH]; intros r H; simpl in H.
  { injection H as <-. constructor. }
  apply result_bind_Ret in H as (b & Hb & H).
  apply result_bind_Ret in H as (bs & Hbs & H). injection H as <-.
  constructor; auto.
Qed.

Lemma map_result_ext {A B} (f f' : A → result B) l :
  (∀ a, f a = f' a) → map_result f l = map_result f' l.
Proof.
  intros Hf. induction l as [|a l IH]; simpl; [done|]. by rewrite Hf, IH.
Qed.

Lemma find_partition_args_nodes g g' sp fuel n :
  g_nodes g = g_nodes g' →
  find_partition_args g sp fuel n = find_partition_args g' sp fuel n.
Proof.
  intros Hg. revert n. induction fuel as [|fuel IH]; intros n; simpl; [done|].
  unfold all_input_nodes, node_args, node_of. rewrite Hg.
  destruct (input_nodes_of [] _); [done|]. by rewrite IH.
Qed.

Lemma remap_args_nodes g g' sp fuel node :
  g_nodes g = g_nodes g' → remap_args g sp fuel node = remap_args g' sp fuel node.
Proof.
  intros Hg. unfold remap_args, node_args, node_of. rewrite Hg.
  apply map_result_ext. intros a.
  destruct a; simpl; try done. by apply find_partition_args_nodes.
Qed.

Lemma find_partition_args_le g sp fuel n r :
  topological g → find_partition_args g sp fuel n = Ret r → r ≤ n.
Proof.
  intros Ht. revert n. induction fuel as [|fuel IH]; intros n H; simpl in H;
    [discriminate|].
  destruct (all_input_nodes g n) as [|first rest] eqn:Hin; [by injection H as <-|].
  destruct (negb _); [|by injection H as <-].
  apply IH in H. assert (first < n); [|lia]. apply Ht. rewrite Hin. by left.
Qed.

Lemma find_partition_args_in_graph g sp fuel n r :
  closed g → is_Some (g_nodes g !! n) →
  find_partition_args g sp fuel n = Ret r → is_Some (g_nodes g !! r).
Proof.
  intros Hc. revert n. induction fuel as [|fuel IH]; intros n Hn H; simpl in H;
    [discriminate|].
  destruct (all_input_nodes g n) as [|first rest] eqn:Hin; [by injection H as <-|].
  destruct (negb _); [|by injection H as <-].
  apply IH in H; [done|]. apply (Hc n). rewrite Hin. by left.
Qed.

(** The fake arguments of a node of a well-formed graph come before the
    node and are nodes of the graph; there are as many as arguments. *)
Lemma remap_args_wf g sp fuel node fake_args :
  topological g → closed g →
  remap_args g sp fuel node = Ret fake_args →
  length fake_args = length (node_args g node)
  ∧ ∀ m, m ∈ fake_args → m < node ∧ is_Some (g_nodes g !! m).
Proof.
  intros Ht Hc H. unfold remap_args in H. apply map_result_Forall2 in H.
  split; [symmetry; by eapply Forall2_length|].
  intros m Hm. apply list_elem_of_lookup in Hm as [i Hi].
  destruct (Forall2_lookup_r _ _ _ _ _ H Hi) as (a & Ha & Hf).
  destruct a as [k| | | |]; try discriminate. simpl in Hf.
  assert (k ∈ all_input_nodes g node) as Hk.
  { apply elem_of_input_nodes_of. by eapply list_elem_of_lookup_2. }
  split.
  - apply find_partition_args_le in Hf; [|done]. specialize (Ht _ _ Hk). lia.
  - eapply find_partition_args_in_graph; [done | | done]. by apply (Hc node).
Qed.

Lemma well_formedb_sound g : well_formedb g = true → well_formed g.
Proof.
  unfold well_formedb. rewrite forallb_forall. intros H.
  assert (∀ n nd, g_nodes g !! n = Some nd →
            forallb (λ m, (m <? n) && bool_decide (is_Some (g_nodes g !! m)))
                    (all_input_nodes g n) = true
            ∧ forallb (λ u, mem n (all_input_nodes g u)) (node_users g n) = true) as Hn.
  { intros n nd Hnd. apply andb_true_iff.
    apply (H (n, nd)). apply list_elem_of_In. by apply elem_of_map_to_list. }
  assert (∀ n m, m ∈ all_input_nodes g n →
            m < n ∧ is_Some (g_nodes g !! m)) as Hops.
  { intros n m Hm. destruct (g_nodes g !! n) as [nd|] eqn:Hnd.
    - destruct (Hn n nd Hnd) as [H1 _]. rewrite forallb_forall in H1.
      specialize (H1 m (proj1 (list_elem_of_In _ _) Hm)).
      apply andb_true_iff in H1 as [Hlt Hdom].
      apply Nat.ltb_lt in Hlt. by apply bool_decide_eq_true in Hdom.
    - unfold all_input_nodes, node_args, node_of in Hm.
      rewrite lookup_total_alt, Hnd in Hm. by inversion Hm. }
  split; [|split].
  - intros n m Hm. by destruct (Hops n m Hm).
  - intros n m Hm. by destruct (Hops n m Hm).
  - intros n u [nd Hnd] Hu. destruct (Hn n nd Hnd) as [_ H2].
    rewrite forallb_forall in H2.
    specialize (H2 u (proj1 (list_elem_of_In _ _) Hu)).
    by apply bool_decide_eq_true in H2.
Qed.

Lemma graph_determined_set_args node a : graph_determined (set_args node a).
Proof.
  unfold set_args. frame_step @graph_determined_bind;
    apply for_each_graph_determined; auto with frame.
Qed.

Lemma keeps_cache_set_args node a : keeps_cache (set_args node a).
Proof.
  unfold set_args. frame_step @keeps_cache_bind;
    apply for_each_keeps_cache; auto with frame.
Qed.

Lemma grows_tags_set_args node a : grows_tags (set_args node a).
Proof.
  unfold set_args. frame_step @grows_tags_bind;
    apply for_each_grows_tags; auto with frame.
Qed.

#[global] Hint Resolve graph_determined_set_args keeps_cache_set_args
  grows_tags_set_args : frame.

Section Properties.
Context `{Q : QuantUtils}.

(** ** The tagging loop of [get_deps] *)

Lemma tag_body_keeps_graph g dep : keeps_graph (tag_body g dep).
Proof. intros st. unfold tag_body. by case_match. Qed.

Lemma tag_body_keeps_cache g dep : keeps_cache (tag_body g dep).
Proof. intros st. unfold tag_body. by case_match. Qed.

Lemma tag_body_grows_tags g dep : grows_tags (tag_body g dep).
Proof.
  intros st. unfold tag_body. case_match; simpl; [set_solver | done].
Qed.

Lemma tag_loop_returns g deps st : (for_each deps (tag_body g) st).1 = Ret tt.
Proof.
  revert st. induction deps as [|d deps IH]; intros st; simpl; [done|].
  unfold mbind, M_bind.
  assert ((tag_body g d st).1 = Ret tt) as Hd by (unfold tag_body; by case_match).
  destruct (tag_body g d st) as [r st1]; simpl in Hd; subst r. apply IH.
Qed.

Lemma tag_loop_tags g deps st d :
  d ∈ deps → is_dequant g d || is_quant g d = true →
  d ∈ implicit_q_dq (for_each deps (tag_body g) st).2.
Proof.
  revert st. induction deps as [|x deps IH]; intros st Hin Hq; [by inversion Hin|].
  simpl. unfold mbind, M_bind.
  assert ((tag_body g x st).1 = Ret tt) as Hx by (unfold tag_body; by case_match).
  destruct (tag_body g x st) as [r st1] eqn:E; simpl in Hx; subst r.
  apply elem_of_cons in Hin as [->|Hin]; [|by apply IH].
  apply (for_each_grows_tags deps (tag_body g) (tag_body_grows_tags g) st1).
  unfold tag_body in E. rewrite Hq in E. injection E as <-. simpl. set_solver.
Qed.


#[local] Hint Resolve tag_body_keeps_graph tag_body_keeps_cache tag_body_grows_tags : frame.

Lemma tag_body_graph_determined g dep : graph_determined (tag_body g dep).
Proof. unfold tag_body. case_match; auto with frame. Qed.

(** ** [GEMMConfig.get_deps] *)

Lemma GEMM_get_deps_keeps_graph cfg node : keeps_graph (GEMM_get_deps cfg node).
Proof.
  unfold GEMM_get_deps. frame_step @keeps_graph_bind.
  apply for_each_keeps_graph. intros dep. apply tag_body_keeps_graph.
Qed.

Lemma GEMM_get_deps_keeps_cache cfg node : keeps_cache (GEMM_get_deps cfg node).
Proof.
  unfold GEMM_get_deps. frame_step @keeps_cache_bind.
  apply for_each_keeps_cache. intros dep. apply tag_body_keeps_cache.
Qed.

Lemma GEMM_get_deps_grows_tags cfg node : grows_tags (GEMM_get_deps cfg node).
Proof.
  unfold GEMM_get_deps. frame_step @grows_tags_bind.
  apply for_each_grows_tags. intros dep. apply tag_body_grows_tags.
Qed.

Lemma GEMM_get_deps_graph_determined cfg node :
  graph_determined (GEMM_get_deps cfg node).
Proof.
  unfold GEMM_get_deps. frame_step @graph_determined_bind.
  apply for_each_graph_determined. intros dep. apply tag_body_graph_determined.
Qed.

#[local] Hint Resolve GEMM_get_deps_keeps_graph GEMM_get_deps_keeps_cache
  GEMM_get_deps_grows_tags GEMM_get_deps_graph_determined : frame.

(** Inversion of a computation that returned: one step per [≫=]. *)
Lemma reading_Ret {A} (f : Graph → result A) (a : A) st st' :
  reading f st = (Ret a, st') → f (graph st) = Ret a ∧ st' = st.
Proof. unfold reading. by intros [= -> ->]. Qed.

Tactic Notation "bind_step" hyp(H) "as" ident(a) ident(st) ident(H1) :=
  apply M_bind_Ret in H as (a & st & H1 & H);
  try (apply reading_Ret in H1 as [H1 ->]).

Ltac bind_inv H :=
  let a := fresh "a" in
  let st := fresh "st" in
  let H1 := fresh "H" in
  apply M_bind_Ret in H as (a & st & H1 & H);
  try (apply reading_Ret in H1 as [H1 ->]).

(** C10. When [GEMMConfig.get_deps] returns, every node of the returned
    list that is a quantize or a dequantize node carries the implicit q/dq
    tag in the final state, whether the returned validity is true or
    false: the tagging loop runs before the validity is looked at. *)
Theorem get_deps_tags_qdq_deps cfg node st valid deps st' d :
  GEMM_get_deps cfg node st = (Ret (valid, deps), st') →
  d ∈ deps →
  is_dequant (graph st) d || is_quant (graph st) d = true →
  d ∈ implicit_q_dq st'.
Proof.
  intros H Hd Hq. unfold GEMM_get_deps in H.
  bind_inv H. destruct (negb _).
  { injection H as _ <- _. by inversion Hd. }
  bind_inv H. destruct a0 as [? precision].
  bind_inv H. destruct a0 as [valid_bias bias_deps].
  bind_inv H. destruct a0 as [valid_weight weight_deps].
  bind_inv H. destruct a0 as [valid_act act_deps].
  bind_inv H. destruct a0 as [valid_output output_deps].
  bind_inv H. injection H6 as <-.
  bind_inv H. injection H as _ <- <-.
  replace st0 with (for_each (bias_deps ++ weight_deps ++ act_deps ++ output_deps)
                      (tag_body (graph st)) st).2
    by (unfold tag_body; by rewrite H6).
  by apply tag_loop_tags.
Qed.

(** ** The addmm adaptation *)

(** Writing the saved arguments and the saved dictionary back gives the
    graph of before the swap. *)
Lemma restore_nodes (nodes : gmap node_id Node) node fake d :
  alter (with_users (n_users (nodes !!! node))) node
    (alter (with_args (n_args (nodes !!! node))) node
       (alter (with_users d) node (alter (with_args fake) node nodes))) = nodes.
Proof.
  unfold node_id in *. apply (map_eq (M := gmap nat)). intros i.
  destruct (decide (node = i)) as [<-|Hne]; [|by rewrite !lookup_alter_ne].
  rewrite !lookup_alter_eq, lookup_total_alt.
  destruct (nodes !! node) as [[op target args users]|]; by simpl.
Qed.

Lemma get_deps_from_src_partition_keeps_cache cfg fuel node sp :
  keeps_cache (get_deps_from_src_partition cfg fuel node sp).
Proof.
  unfold get_deps_from_src_partition. frame_step @keeps_cache_bind.
Qed.

Lemma get_deps_from_src_partition_grows_tags cfg fuel node sp :
  grows_tags (get_deps_from_src_partition cfg fuel node sp).
Proof.
  unfold get_deps_from_src_partition. frame_step @grows_tags_bind.
Qed.

Lemma get_deps_from_src_partition_graph_determined cfg fuel node sp :
  graph_determined (get_deps_from_src_partition cfg fuel node sp).
Proof.
  unfold get_deps_from_src_partition. frame_step @graph_determined_bind.
Qed.

Lemma resolve_and_restore_graph_determined cfg node sp old_args old_users :
  graph_determined (resolve_and_restore cfg node sp old_args old_users).
Proof.
  unfold resolve_and_restore. frame_step @graph_determined_bind.
Qed.

(** The call, past the walk back of the arguments and the validation. *)
Lemma get_deps_from_src_partition_unfold cfg fuel node sp st :
  get_deps_from_src_partition cfg fuel node sp st =
  match remap_args (graph st) sp fuel node with
  | Ret fake_args =>
      match invalid_source_partition cfg sp fake_args with
      | Ret true => (Ret (false, []), st)
      | Ret false =>
          (set_args node (ANode <$> fake_args);;
           resolve_and_restore cfg node sp (node_args (graph st) node)
             (n_users (node_of (graph st) node))) st
      | Raise e => (Raise e, st)
      | OutOfFuel => (OutOfFuel, st)
      end
  | Raise e => (Raise e, st)
  | OutOfFuel => (OutOfFuel, st)
  end.
Proof.
  unfold get_deps_from_src_partition, remap_args.
  unfold mbind at 1, M_bind at 1, get_graph at 1, reading at 1.
  unfold mbind at 1, M_bind at 1, reading at 1.
  destruct (map_result _ _) as [fake_args|e|]; try done.
  unfold mbind at 1, M_bind at 1, reading at 1.
  destruct (invalid_source_partition _ _ _) as [[|]|e|]; done.
Qed.

Lemma invalid_source_partition_nonempty cfg sp fake_args b :
  invalid_source_partition cfg sp fake_args = Ret b → fake_args ≠ [].
Proof.
  intros H ->. unfold invalid_source_partition in H.
  destruct (bias_idx cfg) as [[|i]|]; simpl in H; discriminate.
Qed.

(** What the rest of the call has done when it returns: the consumers
    taken over from the output of the partition, the inner resolution,
    which leaves the graph alone, and the two assignments back. *)
Lemma resolve_and_restore_Ret cfg node sp old_args old_users s1 r st' :
  resolve_and_restore cfg node sp old_args old_users s1 = (Ret r, st') →
  ∃ output dicts',
    index (sp_output_nodes sp) 0 = Ret output
    ∧ let g2 := mkGraph (alter (with_users (n_users (node_of (graph s1) output))) node
                           (g_nodes (graph s1)))
                        (g_dicts (graph s1)) in
      graph st' = mkGraph (alter (with_users old_users) node
                             (alter (with_args old_args) node (g_nodes g2))) dicts'
      ∧ ∀ d, dicts' !! d
             = moved node (operand_dicts g2 (all_input_nodes g2 node))
                 (operand_dicts g2 (arg_nodes old_args)) (g_dicts g2) d.
Proof.
  intros H. unfold resolve_and_restore in H.
  bind_step H as output s2 Hout.
  bind_step H as g1 s3 Hg1. injection Hg1 as <-.
  bind_step H as u2 s4 Hset2. injection Hset2 as _ <-.
  bind_step H as inner s5 Hinner. destruct inner as [valid_deps deps].
  pose proof (GEMM_get_deps_keeps_graph cfg node) as Hk.
  match type of Hinner with ?m ?s = _ => specialize (Hk s); rewrite Hinner in Hk end.
  simpl in Hk.
  bind_step H as u3 s6 Hset3. destruct u3.
  apply set_args_Ret in Hset3 as (_ & _ & dicts' & -> & Hlk).
  bind_step H as u4 s7 Hset4. injection Hset4 as _ <-.
  injection H as _ <-. rewrite Hk in Hlk. simpl in *.
  exists output, dicts'. rewrite Hk. simpl. by repeat split.
Qed.


(** The whole swap on a well-formed graph: the dictionaries of the operands
    after the first assignment and after the assignment back. *)
Lemma swap_and_restore cfg fuel node sp st fake_args r st' :
  well_formed (graph st) →
  remap_args (graph st) sp fuel node = Ret fake_args →
  fake_args ≠ [] →
  (set_args node (ANode <$> fake_args);;
   resolve_and_restore cfg node sp (node_args (graph st) node)
     (n_users (node_of (graph st) node))) st = (Ret r, st') →
  let g := graph st in
  let olds := operand_dicts g (all_input_nodes g node) in
  let news := operand_dicts g fake_args in
  ∃ s1 dicts1 dicts',
    set_args node (ANode <$> fake_args) st = (Ret tt, s1)
    ∧ resolve_and_restore cfg node sp (node_args g node) (n_users (node_of g node)) s1
      = (Ret r, st')
    ∧ graph s1 = mkGraph (alter (with_args (ANode <$> fake_args)) node (g_nodes g)) dicts1
    ∧ (∀ d, dicts1 !! d = moved node olds news (g_dicts g) d)
    ∧ graph st' = mkGraph (g_nodes g) dicts'
    ∧ (∀ d, dicts' !! d = moved node news olds dicts1 d)
    ∧ NoDup olds
    ∧ (∀ d, d ∈ olds → node ∈ users_of (g_dicts g) d)
    ∧ (∀ d, d ∈ news → d ∉ olds → node ∉ users_of (g_dicts g) d)
    ∧ (n_users (node_of g node) ∉ olds)
    ∧ (node ∉ node_users g node).
Proof.
  intros (Ht & Hc & Hu) Hfake Hne H g olds news.
  apply M_bind_Ret in H as ([] & s1 & Hset & H).
  pose proof (set_args_Ret _ _ _ _ Hset) as (Hnd & Hmem & dicts1 & Hs1 & Hlk1).
  simpl in Hnd, Hmem, Hlk1. rewrite arg_nodes_fmap in Hlk1.
  fold g in Hnd, Hmem, Hlk1, Hs1. fold olds in Hnd, Hmem, Hlk1. fold news in Hlk1.
  pose proof (resolve_and_restore_Ret _ _ _ _ _ _ _ _ H) as (output & dicts' & _ & Hg' & Hlk').
  destruct (remap_args_wf _ _ _ _ _ Ht Hc Hfake) as [Hlen Hfk].
  assert (is_Some (g_nodes g !! node)) as Hdom.
  { apply node_args_in_graph. intros Hnil. fold g in Hlen. rewrite Hnil in Hlen.
    by destruct fake_args. }
  assert (node ∉ node_users g node) as Hself.
  { intros Hin. apply Hu in Hin; [|done]. apply Ht in Hin. lia. }
  assert (node ∉ all_input_nodes g node) as Hops.
  { intros Hin. apply Ht in Hin. lia. }
  assert (node ∉ fake_args) as Hfresh.
  { intros Hin. apply Hfk in Hin as [? _]. lia. }
  rewrite Hs1 in Hg', Hlk'. simpl in Hg', Hlk'.
  unfold node_args, node_of in Hg'. fold g in Hg'. rewrite restore_nodes in Hg'.
  exists s1, dicts1, dicts'. rewrite Hs1. simpl.
  split; [by rewrite <- Hs1|]. split; [by rewrite <- Hs1|].
  split; [done|]. split; [done|]. split; [done|]. split.
  { intros d. rewrite Hlk'. apply moved_ext; intros x.
    - apply operand_dicts_swapped; [|].
      + intros m. unfold all_input_nodes. rewrite node_args_swapped by done.
        rewrite elem_of_input_nodes_of, list_elem_of_fmap. split.
        * intros (m' & [= ->] & Hm). done.
        * intros Hm. by exists m.
      + unfold all_input_nodes. rewrite node_args_swapped by done.
        rewrite elem_of_input_nodes_of, list_elem_of_fmap.
        intros (m' & [= <-] & Hm). done.
    - apply operand_dicts_swapped.
      + intros m. unfold all_input_nodes.
        by rewrite elem_of_arg_nodes, elem_of_input_nodes_of.
      + rewrite elem_of_arg_nodes, <- elem_of_input_nodes_of. done. }
  split; [done|]. split; [done|]. split.
  { intros d Hn Ho Hin. apply elem_of_operand_dicts in Hn as (m & Hm & ->).
    apply Ho, elem_of_operand_dicts. exists m. split; [|done].
    apply Hu; [by apply Hfk | done]. }
  split; [|done].
  intros Ho. apply Hmem in Ho. done.
Qed.


(** A call that returned, asked again on the graph it left, returns the
    same. *)
Lemma get_deps_from_src_partition_again cfg fuel node sp st r st' s :
  well_formed (graph st) →
  get_deps_from_src_partition cfg fuel node sp st = (Ret r, st') →
  graph s = graph st' →
  (get_deps_from_src_partition cfg fuel node sp s).1 = Ret r.
Proof.
  intros Hwf H Hs. rewrite get_deps_from_src_partition_unfold in H.
  rewrite get_deps_from_src_partition_unfold.
  destruct (remap_args _ _ _ _) as [fake_args|e|] eqn:Hfake; try discriminate.
  destruct (invalid_source_partition _ _ _) as [[|]|e|] eqn:Hinv; try discriminate.
  { injection H as <- <-. by rewrite Hs, Hfake, Hinv. }
  pose proof (invalid_source_partition_nonempty _ _ _ _ Hinv) as Hne.
  destruct (swap_and_restore _ _ _ _ _ _ _ _ Hwf Hfake Hne H)
    as (s1 & dicts1 & dicts' & _ & Hrest & Hg1 & Hlk1 & Hg' & Hlk' & Hnd & Hmem
        & Hfresh & _ & _).
  destruct s as [gs tags cache]. simpl in Hs. rewrite Hg' in Hs. subst gs.
  rewrite (remap_args_nodes _ (graph st)) by done.
  simpl. rewrite Hfake, Hinv.
  change (node_args (mkGraph (g_nodes (graph st)) dicts') node)
    with (node_args (graph st) node).
  change (node_of (mkGraph (g_nodes (graph st)) dicts') node)
    with (node_of (graph st) node).
  set (s := mkState (mkGraph (g_nodes (graph st)) dicts') tags cache).
  destruct (set_args_returns node (ANode <$> fake_args) s) as [s1' Hset'].
  { exact Hnd. }
  { intros d Hd. simpl. rewrite (moved_back _ _ _ _ _ _ _ Hlk1 Hlk').
    rewrite decide_True by exact Hd. apply elem_of_add_user. }
  pose proof (set_args_Ret _ _ _ _ Hset') as (_ & _ & dicts1' & Hs1' & Hlk1').
  simpl in Hlk1'. rewrite arg_nodes_fmap in Hlk1'.
  assert (dicts1' = dicts1) as ->.
  { eapply (moved_again node _ _ _ _ _ _ Hfresh Hlk1 Hlk'). exact Hlk1'. }
  unfold mbind, M_bind. rewrite Hset'.
  assert (graph s1' = graph s1) as Hsame by (by rewrite Hs1', Hg1).
  destruct (resolve_and_restore_graph_determined cfg node sp (node_args (graph st) node)
              (n_users (node_of (graph st) node)) s1' s1 Hsame) as [-> _].
  by rewrite Hrest.
Qed.

(** The early return of the validation leaves the whole state as it was. *)
Lemma get_deps_from_src_partition_invalid cfg fuel node sp st fake_args :
  map_result (λ arg, arg ← as_node arg; find_partition_args (graph st) sp fuel arg)
             (node_args (graph st) node) = Ret fake_args →
  invalid_source_partition cfg sp fake_args = Ret true →
  get_deps_from_src_partition cfg fuel node sp st = (Ret (false, []), st).
Proof.
  intros Hfake Hinv. unfold get_deps_from_src_partition.
  unfold_M. simpl. rewrite Hfake. simpl. by rewrite Hinv.
Qed.

(** What the validation establishes when it lets a partition through. *)
Lemma invalid_source_partition_false cfg sp fake_args :
  invalid_source_partition cfg sp fake_args = Ret false →
  (∃ act, fake_args !! act_idx cfg = Some act ∧ act ∈ sp_input_nodes sp)
  ∧ (∃ weight, fake_args !! weight_idx cfg = Some weight
               ∧ weight ∈ sp_nodes sp ++ sp_input_nodes sp)
  ∧ length (sp_output_nodes sp) = 1
  ∧ (∀ i, bias_idx cfg = Some (S i) →
          ∃ bias, fake_args !! S i = Some bias ∧ bias ∈ sp_nodes sp).
Proof.
  unfold invalid_source_partition, index, mem. intros H.
  apply result_bind_Ret in H as (bias_outside & Hb & H).
  destruct bias_outside; [discriminate|].
  destruct (fake_args !! act_idx cfg) as [act|] eqn:Hact; [|discriminate].
  simpl in H. case_bool_decide as Ha; [|discriminate]. simpl in H.
  destruct (fake_args !! weight_idx cfg) as [weight|] eqn:Hw; [|discriminate].
  simpl in H. case_bool_decide as Hwin; [|discriminate]. simpl in H.
  injection H as H. apply negb_false_iff, Nat.eqb_eq in H.
  repeat split; eauto.
  intros i Hi. rewrite Hi in Hb.
  destruct (fake_args !! S i) as [bias|]; [|discriminate].
  simpl in Hb. injection Hb as Hb. apply negb_false_iff, bool_decide_eq_true in Hb.
  eauto.
Qed.

(** When the index of the bias is 0, as it is for [AddmmConfig], or when
    there is no bias, the validation does not look at the bias. *)
Lemma invalid_source_partition_ignores_bias cfg sp fake_args bias' :
  bias_idx cfg = Some 0 ∨ bias_idx cfg = None →
  0 ≠ act_idx cfg → 0 ≠ weight_idx cfg →
  invalid_source_partition cfg sp (<[0 := bias']> fake_args)
  = invalid_source_partition cfg sp fake_args.
Proof.
  intros Hb Ha Hw. unfold invalid_source_partition, index.
  rewrite !list_lookup_insert_ne by done.
  by destruct Hb as [-> | ->].
Qed.

(** ** Fuel of [find_partition_args]

    In a graph whose nodes are numbered in topological order the loop ends
    within as many iterations as the number of its starting node plus
    one. *)
Lemma find_partition_args_returns g sp fuel n :
  topological g → n < fuel →
  ∃ r, find_partition_args g sp fuel n = Ret r.
Proof.
  intros Htopo. revert n. induction fuel as [|fuel IH]; intros n Hn; [lia|].
  simpl. destruct (all_input_nodes g n) as [|first rest] eqn:Hin; [eauto|].
  destruct (negb _); [|eauto].
  apply IH. assert (first < n); [|lia].
  apply Htopo. rewrite Hin. by left.
Qed.

Lemma input_nodes_of_sound seen l m :
  m ∈ input_nodes_of seen l → ANode m ∈ l.
Proof.
  revert seen. induction l as [|a l IH]; intros seen H; simpl in H; [by inversion H|].
  destruct a as [k| | | |]; try (right; by eapply IH).
  case_bool_decide; [right; by eapply IH|].
  apply elem_of_cons in H as [->|H]; [by left | right; by eapply IH].
Qed.

Lemma input_nodes_of_complete seen l m :
  ANode m ∈ l → m ∈ seen ∨ m ∈ input_nodes_of seen l.
Proof.
  revert seen. induction l as [|a l IH]; intros seen H; [by inversion H|].
  apply elem_of_cons in H as [<-|H]; simpl.
  - case_bool_decide; [by left | right; by left].
  - destruct a as [k| | | |]; try by apply IH.
    case_bool_decide; [by apply IH|].
    destruct (IH (k :: seen) H) as [Hs|Hi]; [|right; by right].
    apply elem_of_cons in Hs as [->|Hs]; [right; by left | by left].
Qed.

(** The loop over the arguments of the node returns when they are all
    nodes, the graph is in topological order and the fuel is at least the
    number of the node. *)
Lemma fake_args_return g sp fuel node :
  topological g → node ≤ fuel →
  Forall (λ a, is_node a = true) (node_args g node) →
  ∃ fake_args,
    map_result (λ arg, arg ← as_node arg; find_partition_args g sp fuel arg)
               (node_args g node) = Ret fake_args.
Proof.
  intros Htopo Hfuel Hnodes.
  assert (∀ m, ANode m ∈ node_args g node → m < fuel) as Hlt.
  { intros m Hm. assert (m < node); [|lia]. apply Htopo.
    destruct (input_nodes_of_complete [] _ _ Hm) as [H|H]; [by inversion H | done]. }
  clear Hfuel. induction Hnodes as [|a l Ha Hl IH]; simpl; [eauto|].
  destruct a as [m| | | |]; try discriminate. simpl.
  destruct (find_partition_args_returns g sp fuel m Htopo) as [r ->].
  { apply Hlt. by left. }
  simpl. destruct IH as [rs ->]; [|simpl; eauto].
  intros k Hk. apply Hlt. by right.
Qed.

(** A graph built from declarations in which every node comes after its
    operands is in topological order. *)
Lemma build_graph_topological decls :
  Forall (λ d : node_decl, ∀ m, ANode m ∈ d.2 → m < d.1.1.1) decls →
  topological (build_graph decls).
Proof.
  intros Hd n m Hm. unfold all_input_nodes in Hm.
  apply input_nodes_of_sound in Hm.
  unfold node_args, node_of, build_graph in Hm. simpl in Hm.
  rewrite lookup_total_alt in Hm.
  destruct (list_to_map _ !! n) as [nd|] eqn:E; simpl in Hm; [|by inversion Hm].
  apply elem_of_list_to_map_2, list_elem_of_fmap in E as ([[[n' op] target] args] & E & Hin).
  injection E as -> ->. simpl in Hm.
  rewrite Forall_forall in Hd. by apply (Hd _ Hin).
Qed.

Lemma find_partition_args_more_fuel g sp fuel fuel' n r :
  find_partition_args g sp fuel n = Ret r → fuel ≤ fuel' →
  find_partition_args g sp fuel' n = Ret r.
Proof.
  revert fuel' n. induction fuel as [|fuel IH]; intros fuel' n H Hle; [discriminate|].
  destruct fuel' as [|fuel']; [lia|]. simpl in *.
  destruct (all_input_nodes g n) as [|first rest]; [done|].
  destruct (negb _); [|done]. apply IH; [done|lia].
Qed.

(** ** The override and the combination with the partition *)

Lemma invalid_source_partition_set_force force cfg sp fake_args :
  invalid_source_partition (set_force force cfg) sp fake_args
  = invalid_source_partition cfg sp fake_args.
Proof. done. Qed.

(** What a call that got through the validation returns: the combination,
    by the operation that the override selects, of some list with the
    nodes of the partition. *)
Lemma get_deps_from_src_partition_combines cfg fuel node sp st valid ret_deps st' :
  get_deps_from_src_partition cfg fuel node sp st = (Ret (valid, ret_deps), st') →
  (∃ fake_args,
      map_result (λ arg, arg ← as_node arg; find_partition_args (graph st) sp fuel arg)
                 (node_args (graph st) node) = Ret fake_args
      ∧ invalid_source_partition cfg sp fake_args = Ret true
      ∧ ret_deps = [])
  ∨ (∃ fake_args deps,
      map_result (λ arg, arg ← as_node arg; find_partition_args (graph st) sp fuel arg)
                 (node_args (graph st) node) = Ret fake_args
      ∧ invalid_source_partition cfg sp fake_args = Ret false
      ∧ ret_deps = if force_non_static_weights_for_f32_linear cfg
                   then list_set_inter deps (sp_nodes sp)
                   else list_set_union deps (sp_nodes sp)).
Proof.
  intros H. unfold get_deps_from_src_partition in H.
  bind_step H as g s0 Hg. injection Hg as <-.
  bind_step H as fake_args s1 Hfake.
  bind_step H as invalid s2 Hinv. destruct invalid.
  { left. exists fake_args. by injection H as _ <- _. }
  right.
  bind_step H as u1 s3 Hset1.
  bind_step H as output s4 Hout.
  bind_step H as g1 s5 Hg1.
  bind_step H as u2 s6 Hset2.
  bind_step H as inner s7 Hinner. destruct inner as [valid_deps deps].
  bind_step H as u3 s8 Hset3.
  bind_step H as u4 s9 Hset4.
  injection H as _ <- _. by exists fake_args, deps.
Qed.

(** C7. For the same state, node and partition, the nodes returned with
    the override [force_non_static_weights_for_f32_linear] switched on are
    among the nodes returned with the override switched off. *)
Theorem force_non_static_deps_subset cfg fuel node sp st v_on d_on st_on v_off d_off st_off :
  get_deps_from_src_partition (set_force true cfg) fuel node sp st
    = (Ret (v_on, d_on), st_on) →
  get_deps_from_src_partition (set_force false cfg) fuel node sp st
    = (Ret (v_off, d_off), st_off) →
  d_on ⊆ d_off.
Proof.
  intros Hon Hoff.
  apply get_deps_from_src_partition_combines in Hon, Hoff.
  destruct Hon as [(f1 & Hf1 & Hi1 & ->) | (f1 & deps1 & Hf1 & Hi1 & ->)];
    [set_solver|].
  destruct Hoff as [(f2 & Hf2 & Hi2 & ->) | (f2 & deps2 & Hf2 & Hi2 & ->)].
  { rewrite Hf1 in Hf2. injection Hf2 as <-.
    rewrite invalid_source_partition_set_force in Hi1, Hi2. congruence. }
  simpl. unfold list_set_inter, list_set_union. intros x.
  rewrite !elem_of_elements, elem_of_intersection, elem_of_union,
    !elem_of_list_to_set.
  tauto.
Qed.

(** ** [AddmmConfig.get_deps] and repeated calls *)

Lemma Addmm_get_deps_unfold cfg fuel node st :
  Addmm_get_deps cfg fuel node st =
  match find_src_partition (effective_partitions st) node with
  | Some src_partition => get_deps_from_src_partition cfg fuel node src_partition
  | None => GEMM_get_deps cfg node
  end (mkState (graph st) (implicit_q_dq st) (Some (effective_partitions st))).
Proof.
  unfold Addmm_get_deps, effective_partitions. unfold_M.
  destruct st as [g tags [partitions|]]; simpl; reflexivity.
Qed.

(** A call that returns on a well-formed graph, asked again on the graph
    and with the cache it leaves, gives the same answer. *)
Lemma get_deps_stable cfg fuel node st r st1 s :
  well_formed (graph st) →
  get_deps cfg fuel node st = (Ret r, st1) →
  graph s = graph st1 → src_partitions s = src_partitions st1 →
  (get_deps cfg fuel node s).1 = Ret r.
Proof.
  intros Hwf H Hs Hcache.
  assert (∀ s0, GEMM_get_deps cfg node s0 = (Ret r, st1) →
            (GEMM_get_deps cfg node s).1 = Ret r) as Hgemm.
  { intros s0 H0.
    pose proof (GEMM_get_deps_keeps_graph cfg node s0) as Hk. rewrite H0 in Hk.
    simpl in Hk. rewrite Hk in Hs.
    destruct (GEMM_get_deps_graph_determined cfg node s s0 Hs) as [-> _].
    by rewrite H0. }
  unfold get_deps in *.
  assert (Addmm_get_deps cfg fuel node st = (Ret r, st1) →
            (Addmm_get_deps cfg fuel node s).1 = Ret r) as Haddmm.
  { clear H. intros H. rewrite Addmm_get_deps_unfold in H.
    set (s0 := mkState (graph st) (implicit_q_dq st) (Some (effective_partitions st))) in *.
    assert (src_partitions st1 = Some (effective_partitions st)) as Hc.
    { destruct (find_src_partition _ _) as [sp|].
      - pose proof (get_deps_from_src_partition_keeps_cache cfg fuel node sp s0) as Hk.
        by rewrite H in Hk.
      - pose proof (GEMM_get_deps_keeps_cache cfg node s0) as Hk. by rewrite H in Hk. }
    rewrite Addmm_get_deps_unfold.
    assert (effective_partitions s = effective_partitions st) as ->.
    { unfold effective_partitions at 1. by rewrite Hcache, Hc. }
    destruct (find_src_partition _ _) as [sp|].
    - by apply (get_deps_from_src_partition_again cfg fuel node sp s0 r st1).
    - apply (Hgemm s0) in H.
      destruct (GEMM_get_deps_graph_determined cfg node
                  (mkState (graph s) (implicit_q_dq s) (Some (effective_partitions st)))
                  s eq_refl) as [-> _].
      done. }
  destruct (family cfg); eauto.
Qed.

(** C8. On a well-formed graph, a call of [get_node_and_deps] that returns
    can be repeated in the state it leaves behind: the second call returns
    too, and returns the same nodes. *)
Theorem get_node_and_deps_repeatable cfg fuel node st nodes1 st1 :
  well_formed (graph st) →
  get_node_and_deps cfg fuel node st = (Ret nodes1, st1) →
  ∃ nodes2 st2,
    get_node_and_deps cfg fuel node st1 = (Ret nodes2, st2)
    ∧ (list_to_set nodes2 : gset node_id) = list_to_set nodes1.
Proof.
  intros Hwf H. unfold get_node_and_deps in H.
  bind_step H as r s1 Hdeps. destruct r as [valid deps].
  injection H as <- <-.
  pose proof (get_deps_stable _ _ _ _ _ _ s1 Hwf Hdeps eq_refl eq_refl) as Hsecond.
  unfold get_node_and_deps. unfold mbind, M_bind.
  destruct (get_deps cfg fuel node s1) as [r2 s2]. simpl in Hsecond. subst r2.
  by exists ([node] ++ deps), s2.
Qed.

(** ** Constraints of a convolution *)

Lemma GEMM_check_constraints_keeps_graph cfg fuel node :
  family cfg = Convolution → keeps_graph (GEMM_check_constraints cfg fuel node).
Proof.
  intros Hf. unfold GEMM_check_constraints, get_deps. rewrite Hf.
  frame_step @keeps_graph_bind.
Qed.

(** C6. A convolution node whose stride list has more than two entries is
    never accepted: [check_constraints] returns [False] whenever the check
    of the base class returns, whatever that returns, and it raises only if
    that raises. *)
Theorem conv_stride_over_2_rejected cfg fuel node st strides :
  family cfg = Convolution →
  node_args (graph st) node !! 3 = Some (AInts strides) →
  2 < length strides →
  (check_constraints cfg fuel node st).1
  = (λ _, false) <$> (GEMM_check_constraints cfg fuel node st).1.
Proof.
  intros Hf Hstride Hlen. unfold check_constraints. rewrite Hf.
  unfold Conv_check_constraints. unfold mbind at 1. unfold M_bind.
  pose proof (GEMM_check_constraints_keeps_graph cfg fuel node Hf st) as Hk.
  destruct (GEMM_check_constraints cfg fuel node st) as [[ok| |] st1]; simpl in *;
    try done.
  destruct ok; simpl; [|done].
  unfold conv_constraints, index. rewrite Hk, Hstride. simpl.
  by apply Nat.ltb_lt in Hlen as ->.
Qed.

(** ** The resolvers *)

(** C5. A node resolved as dynamically quantized whose weight is
    dequantized per tensor from a static parameter has no valid weight
    dependencies: [_get_weight_deps], of whichever class, returns
    [(False, [])]. *)
Theorem per_tensor_weight_dynamic_rejected cfg g node overwritten dequant_node weight :
  _overwrite_precision cfg g node = Ret (overwritten, DYNAMIC_QUANT) →
  get_input_node g node (weight_idx cfg) = Ret (ANode dequant_node) →
  is_dequant g dequant_node = true →
  is_per_tensor g dequant_node = true →
  get_input_node g dequant_node 0 = Ret (ANode weight) →
  is_param_node g weight = true →
  _get_weight_deps cfg g node DYNAMIC_QUANT = Ret (false, []).
Proof.
  intros Hov Hw Hdq Hpt Hw0 Hparam.
  assert (GEMM_get_weight_deps cfg g node DYNAMIC_QUANT = Ret (false, [])) as Hgemm.
  { unfold GEMM_get_weight_deps. simpl. rewrite Hw. simpl. rewrite Hdq. simpl.
    rewrite Hw0. simpl. by rewrite Hparam, Hpt. }
  unfold _get_weight_deps, Linear_get_weight_deps, MM_get_weight_deps,
    Addmm_get_weight_deps.
  destruct (family cfg); simpl; try done.
  by rewrite Hov.
Qed.

(** The amended C3. With a quantized precision and a weight dequantized
    per channel or per channel group from a static parameter,
    [GEMMConfig._get_weight_deps] fails when the dequantize node has no
    node operand beyond the weight, and otherwise (unless the weight is also
    per tensor under dynamic quantization) succeeds with the dequantize
    node, the weight, the second node operand and, if there is one, the
    third. *)
Theorem channel_weight_deps cfg g node precision dequant_node weight :
  precision ≠ FP32 →
  get_input_node g node (weight_idx cfg) = Ret (ANode dequant_node) →
  is_dequant g dequant_node = true →
  get_input_node g dequant_node 0 = Ret (ANode weight) →
  is_param_node g weight = true →
  is_per_channel g dequant_node || is_per_channel_group g dequant_node = true →
  (length (all_input_nodes g dequant_node) < 2 →
     GEMM_get_weight_deps cfg g node precision = Ret (false, []))
  ∧ (∀ scale rest,
       all_input_nodes g dequant_node = weight :: scale :: rest →
       is_per_tensor g dequant_node && bool_decide (precision = DYNAMIC_QUANT) = false →
       GEMM_get_weight_deps cfg g node precision
       = Ret (true, [dequant_node; weight; scale] ++ take 1 rest)).
Proof.
  intros Hp Hw Hdq Hw0 Hparam Hch.
  unfold GEMM_get_weight_deps. rewrite bool_decide_eq_false_2 by done.
  rewrite Hw. simpl. rewrite Hdq. simpl. rewrite Hw0. simpl. rewrite Hparam. simpl.
  split.
  - intros Hlen. destruct (_ && _); [done|]. rewrite Hch.
    by apply Nat.ltb_lt in Hlen as ->.
  - intros scale rest Hin Hpt. rewrite Hpt, Hch, Hin. simpl. done.
Qed.

(** The amended C4. Under dynamic quantization [_get_act_deps] succeeds
    exactly when the activation is a dequantize node over a quantize node
    whose operands 1 and 2 are getitem nodes and the source of the first
    of them is a choose_qparams node; it then returns these five nodes.
    The source of the second getitem node is not looked at.  When it
    returns a failure it returns no nodes. *)
Theorem dynamic_act_deps cfg g node :
  (∀ deps,
     _get_act_deps cfg g node DYNAMIC_QUANT = Ret (true, deps) ↔
     ∃ dq_input q_input getitem1 getitem2 choose_qparam,
       get_input_node g node (act_idx cfg) = Ret (ANode dq_input)
       ∧ is_dequant g dq_input = true
       ∧ get_input_node g dq_input 0 = Ret (ANode q_input)
       ∧ is_quant g q_input = true
       ∧ (let q_input_args :=
            if is_affine_qdq g q_input
            then extract_qdq_affine_op_args_for_decomposed_ops g q_input
            else node_args g q_input in
          q_input_args !! 1 = Some (ANode getitem1)
          ∧ q_input_args !! 2 = Some (ANode getitem2))
       ∧ is_getitem g getitem1 = true
       ∧ is_getitem g getitem2 = true
       ∧ get_input_node g getitem1 0 = Ret (ANode choose_qparam)
       ∧ is_qparam g choose_qparam = true
       ∧ deps = [dq_input; q_input; getitem1; getitem2; choose_qparam])
  ∧ (∀ deps, _get_act_deps cfg g node DYNAMIC_QUANT = Ret (false, deps) → deps = []).
Proof.
  unfold _get_act_deps, get_input_node, index. simpl.
  split; [intros deps; split|].
  - intros H.
    destruct (node_args g node !! act_idx cfg) as [[dq| | | |]|]; simpl in H;
      try discriminate.
    destruct (is_dequant g dq) eqn:Hdq; simpl in H; [|discriminate].
    destruct (node_args g dq !! 0) as [[q| | | |]|] eqn:Hq0; simpl in H;
      try discriminate.
    destruct (is_quant g q) eqn:Hq; simpl in H; [|discriminate].
    destruct (_ !! 1) as [[g1| | | |]|] eqn:H1 in H; simpl in H; try discriminate.
    destruct (_ !! 2) as [[g2| | | |]|] eqn:H2 in H; simpl in H; try discriminate.
    destruct (is_getitem g g1) eqn:Hg1; simpl in H; [|discriminate].
    destruct (is_getitem g g2) eqn:Hg2; simpl in H; [|discriminate].
    destruct (node_args g g1 !! 0) as [[cq| | | |]|] eqn:Hcq0; simpl in H;
      try discriminate.
    destruct (is_qparam g cq) eqn:Hcq; simpl in H; [|discriminate].
    injection H as <-. exists dq, q, g1, g2, cq. rewrite Hq0, Hcq0. by repeat split.
  - intros (dq & q & g1 & g2 & cq & Hdq0 & Hdq & Hq0 & Hq & [H1 H2] & Hg1 & Hg2
            & Hcq0 & Hcq & ->).
    destruct (node_args g node !! act_idx cfg) as [a|]; [|discriminate].
    injection Hdq0 as ->. simpl. rewrite Hdq. simpl.
    destruct (node_args g dq !! 0) as [a|]; [|discriminate].
    injection Hq0 as ->. simpl. rewrite Hq. simpl.
    rewrite H1. simpl. rewrite H2. simpl. rewrite Hg1, Hg2. simpl.
    destruct (node_args g g1 !! 0) as [a|]; [|discriminate].
    injection Hcq0 as ->. simpl. by rewrite Hcq.
  - intros deps H.
    repeat match type of H with
    | Ret (true, _) = Ret (false, _) => discriminate H
    | Ret (false, []) = Ret (false, _) => injection H as <-; reflexivity
    | _ ≫= _ = Ret _ => apply result_bind_Ret in H as (? & ? & H)
    | (if ?b then _ else _) = Ret _ => destruct b
    end.
Qed.

End Properties.

(** ** The properties on the concrete graphs *)

(** C9. [get_node_and_deps] returns the node followed by the nodes of
    [get_deps] and drops the validity: on the linear node with a per-tensor
    weight under dynamic quantization the weight resolver fails, the
    resolution is invalid, and the list still holds the bias and the five
    nodes of the activation chain. *)
Theorem get_node_and_deps_discards_validity :
  (∀ (Q : QuantUtils) cfg fuel node st,
     get_node_and_deps cfg fuel node st =
     match get_deps cfg fuel node st with
     | (Ret (_, deps), st') => (Ret (node :: deps), st')
     | (Raise e, st') => (Raise e, st')
     | (OutOfFuel, st') => (OutOfFuel, st')
     end)
  ∧ (let cfg := LinearConfig all_precisions false in
     let st := initial_state dq_linear_graph_per_tensor in
     (@get_deps ex_Q cfg 0 11 st).1 = Ret (false, [10; 5; 4; 2; 3; 1])
     ∧ (@_get_weight_deps ex_Q cfg (graph st) 11 DYNAMIC_QUANT) = Ret (false, [])
     ∧ (@get_node_and_deps ex_Q cfg 0 11 st).1 = Ret [11; 10; 5; 4; 2; 3; 1]).
Proof.
  split.
  - intros Q cfg fuel node st. unfold get_node_and_deps, mbind, M_bind.
    by destruct (get_deps cfg fuel node st) as [[[valid deps]| |] st'].
  - by vm_compute.
Qed.


(** The early return: the activation is not a declared input of the
    partition, the call returns [(False, [])] and changes nothing. *)
Example get_deps_from_src_partition_early_return :
  let cfg := AddmmConfig all_precisions false in
  let st := initial_state addmm_graph in
  @get_deps_from_src_partition ex_Q cfg 10 4 addmm_partition_bad_act st
  = (Ret (false, []), st).
Proof. vm_compute. reflexivity. Qed.


(** The resolution on the two plain linear calls: the weight and the fused
    relu in full precision; the two dequantize nodes, the weight, relu and
    the final quantize node under static quantization, the q/dq nodes
    tagged. *)
Example fp32_linear_deps :
  let cfg := LinearConfig all_precisions false in
  @_detect_precision ex_Q cfg fp32_linear_graph 2 = Ret FP32
  ∧ (@get_deps ex_Q cfg 0 2 (initial_state fp32_linear_graph)).1 = Ret (true, [1; 3]).
Proof. by vm_compute. Qed.

Example static_linear_deps :
  let cfg := LinearConfig all_precisions false in
  let out := @get_deps ex_Q cfg 0 5 (initial_state static_linear_graph) in
  @_detect_precision ex_Q cfg static_linear_graph 5 = Ret STATIC_QUANT
  ∧ out.1 = Ret (true, [4; 3; 2; 6; 7])
  ∧ implicit_q_dq out.2 = {[4; 2; 7]}.
Proof. by vm_compute. Qed.

Example addmm_graph_topological : topological addmm_graph.
Proof.
  apply build_graph_topological.
  repeat (apply Forall_cons; split;
    [simpl; intros m Hm;
     repeat (apply elem_of_cons in Hm as [Hm|Hm]; [try discriminate; injection Hm as ->; lia|]);
     by inversion Hm|]).
  apply Forall_nil. done.
Qed.

(** C2, the code at the failing input.  The bias of the addmm node walks
    back to node 2, which is an input of the partition and not one of its
    nodes; the validation lets the partition through and the resolution
    succeeds. *)
Theorem addmm_bias_outside_partition_accepted :
  let cfg := AddmmConfig all_precisions false in
  let st := initial_state addmm_graph in
  map_result (λ arg, arg ← as_node arg; find_partition_args addmm_graph addmm_partition 10 arg)
             (node_args addmm_graph 4) = Ret [2; 0; 1]
  ∧ bias_idx cfg = Some 0
  ∧ mem 2 (sp_nodes addmm_partition) = false
  ∧ invalid_source_partition cfg addmm_partition [2; 0; 1] = Ret false
  ∧ (@get_deps_from_src_partition ex_Q cfg 10 4 addmm_partition st).1
    = Ret (true, [4; 2; 5; 3; 1]).
Proof. by vm_compute. Qed.

(** C3 as stated fails: the per-channel dequantize node 9 has the scales as
    its only operand beyond the weight, and the resolution succeeds. *)
Lemma channel_weight_scale_only_accepted :
  let cfg := LinearConfig all_precisions false in
  let g := dq_linear_graph_no_zp in
  @_overwrite_precision ex_Q cfg g 11 = Ret (false, DYNAMIC_QUANT)
  ∧ get_input_node g 11 (weight_idx cfg) = Ret (ANode 9)
  ∧ @is_per_channel ex_Q g 9 = true
  ∧ all_input_nodes g 9 = [6; 7]
  ∧ @GEMM_get_weight_deps ex_Q cfg g 11 DYNAMIC_QUANT = Ret (true, [9; 6; 7]).
Proof. by vm_compute. Qed.

Lemma channel_weight_deps_witness :
  let cfg := LinearConfig all_precisions false in
  let g := dq_linear_graph in
  (length (all_input_nodes g 9) < 2 →
     @GEMM_get_weight_deps ex_Q cfg g 11 DYNAMIC_QUANT = Ret (false, []))
  ∧ (∀ scale rest,
       all_input_nodes g 9 = 6 :: scale :: rest →
       @is_per_tensor ex_Q g 9 && bool_decide (DYNAMIC_QUANT = DYNAMIC_QUANT) = false →
       @GEMM_get_weight_deps ex_Q cfg g 11 DYNAMIC_QUANT
       = Ret (true, [9; 6; scale] ++ take 1 rest)).
Proof.
  intros cfg g.
  apply (@channel_weight_deps ex_Q cfg g 11 DYNAMIC_QUANT 9 6);
    [discriminate | vm_compute; reflexivity ..].
Defined.

(** C4 as stated fails. The activation of the linear node 13 is the
    dequantize node 7, whose scale and zero point are the getitem nodes 2
    and 3 over choose_qparams: it is a dynamic q/dq node and the precision
    is resolved as dynamic. The quantize node 6 under it takes its zero
    point from the getitem node 5, which reads node 4, not a choose_qparams
    node, and the resolution succeeds. *)
Lemma dynamic_act_foreign_zero_point_accepted :
  let cfg := LinearConfig all_precisions false in
  let g := dq_linear_graph_foreign_zp in
  get_input_node g 13 (act_idx cfg) = Ret (ANode 7)
  ∧ @is_dynamic_qdq ex_Q g 7 = true
  ∧ @_detect_precision ex_Q cfg g 13 = Ret DYNAMIC_QUANT
  ∧ @_overwrite_precision ex_Q cfg g 13 = Ret (false, DYNAMIC_QUANT)
  ∧ get_input_node g 7 0 = Ret (ANode 6)
  ∧ node_args g 6 !! 2 = Some (ANode 5)
  ∧ @is_getitem ex_Q g 5 = true
  ∧ get_input_node g 5 0 = Ret (ANode 4)
  ∧ @is_qparam ex_Q g 4 = false
  ∧ @_get_act_deps ex_Q cfg g 13 DYNAMIC_QUANT = Ret (true, [7; 6; 2; 5; 1])
  ∧ (@get_deps ex_Q cfg 0 13 (initial_state g)).1
    = Ret (true, [12; 11; 8; 9; 10; 7; 6; 2; 5; 1]).
Proof. by vm_compute. Qed.

Lemma per_tensor_weight_dynamic_rejected_witness :
  let cfg := LinearConfig all_precisions false in
  @_get_weight_deps ex_Q cfg dq_linear_graph_per_tensor 11 DYNAMIC_QUANT
  = Ret (false, []).
Proof.
  intros cfg.
  apply (@per_tensor_weight_dynamic_rejected ex_Q cfg dq_linear_graph_per_tensor
           11 false 9 6); vm_compute; reflexivity.
Defined.

Lemma conv_stride_over_2_rejected_witness :
  let cfg := ConvolutionConfig all_precisions false in
  let st := initial_state conv3d_graph in
  (@check_constraints ex_Q cfg 0 3 st).1
  = (λ _, false) <$> (@GEMM_check_constraints ex_Q cfg 0 3 st).1.
Proof.
  intros cfg st.
  apply (@conv_stride_over_2_rejected ex_Q cfg 0 3 st [1; 1; 1]%Z);
    [reflexivity | vm_compute; reflexivity | simpl; lia].
Defined.

(** On that graph the dependencies are valid and the convolution is
    rejected all the same. *)
Example conv3d_rejected :
  let cfg := ConvolutionConfig all_precisions false in
  let st := initial_state conv3d_graph in
  (@GEMM_check_constraints ex_Q cfg 0 3 st).1 = Ret true
  ∧ (@check_constraints ex_Q cfg 0 3 st).1 = Ret false.
Proof. by vm_compute. Qed.

Lemma force_non_static_deps_subset_witness :
  let cfg := AddmmConfig all_precisions false in
  let st := initial_state addmm_graph in
  (@get_deps_from_src_partition ex_Q (set_force true cfg) 10 4 addmm_partition st).1
  = Ret (true, [])
  ∧ (@get_deps_from_src_partition ex_Q (set_force false cfg) 10 4 addmm_partition st).1
    = Ret (true, [4; 2; 5; 3; 1])
  ∧ ([] : list node_id) ⊆ [4; 2; 5; 3; 1].
Proof.
  intros cfg st. split; [vm_compute; reflexivity|]. split; [vm_compute; reflexivity|].
  apply (@force_non_static_deps_subset ex_Q cfg 10 4 addmm_partition st
           true [] (@get_deps_from_src_partition ex_Q (set_force true cfg) 10 4
                      addmm_partition st).2
           true [4; 2; 5; 3; 1]
           (@get_deps_from_src_partition ex_Q (set_force false cfg) 10 4
                      addmm_partition st).2);
    vm_compute; reflexivity.
Defined.

Lemma get_node_and_deps_repeatable_witness :
  let cfg := AddmmConfig all_precisions false in
  let st := initial_state addmm_graph in
  ∃ nodes2 st2,
    @get_node_and_deps ex_Q cfg 10 4
      (@get_node_and_deps ex_Q cfg 10 4 st).2 = (Ret nodes2, st2)
    ∧ (list_to_set nodes2 : gset node_id) = list_to_set [4; 4; 2; 5; 3; 1].
Proof.
  intros cfg st.
  apply (@get_node_and_deps_repeatable ex_Q cfg 10 4 st).
  - apply well_formedb_sound. vm_compute. reflexivity.
  - vm_compute. reflexivity.
Defined.

Lemma get_deps_tags_qdq_deps_witness :
  let cfg := LinearConfig all_precisions false in
  let st := initial_state dq_linear_graph_per_tensor in
  5 ∈ implicit_q_dq (@GEMM_get_deps ex_Q cfg 11 st).2.
Proof.
  intros cfg st.
  apply (@get_deps_tags_qdq_deps ex_Q cfg 11 st false [10; 5; 4; 2; 3; 1]
           (@GEMM_get_deps ex_Q cfg 11 st).2 5).
  - vm_compute. reflexivity.
  - apply (bool_decide_unpack (5 ∈ [10; 5; 4; 2; 3; 1])). vm_compute. exact I.
  - vm_compute. reflexivity.
Defined.

(** * Further properties of the resolvers and the entry points *)

Ltac result_inv H :=
  repeat match type of H with
  | Ret _ = Ret _ => first [discriminate H | injection H; clear H; intros; simplify_eq]
  | Raise _ = Ret _ => discriminate H
  | _ ≫= _ = Ret _ =>
      let x := fresh "x" in
      let Hx := fresh "Hx" in
      apply result_bind_Ret in H as (x & Hx & H)
  | (if negb ?b then _ else _) = Ret _ =>
      let Hb := fresh "Hb" in destruct b eqn:Hb; simpl in H
  | (if ?b then _ else _) = Ret _ =>
      let Hb := fresh "Hb" in destruct b eqn:Hb
  | (let '(_, _) := ?p in _) = Ret _ => destruct p
  | match ?o with Some _ => _ | None => _ end = Ret _ =>
      let Ho := fresh "Ho" in destruct o eqn:Ho
  | match ?l with [] => _ | _ :: _ => _ end = Ret _ =>
      let Hl := fresh "Hl" in destruct l eqn:Hl
  end.

Section Resolver_properties.
Context `{Q : QuantUtils}.

Lemma as_node_Ret a m : as_node a = Ret m → a = ANode m.
Proof. destruct a; simpl; intros H; by inversion H. Qed.

(** Every resolver that fails returns the empty list with the failure. *)
Lemma bias_deps_failure cfg g node precision deps :
  _get_bias_deps cfg g node precision = Ret (false, deps) → deps = [].
Proof. unfold _get_bias_deps. intros H. result_inv H; congruence. Qed.

Lemma GEMM_weight_deps_failure cfg g node precision deps :
  GEMM_get_weight_deps cfg g node precision = Ret (false, deps) → deps = [].
Proof. unfold GEMM_get_weight_deps. intros H. result_inv H; congruence. Qed.

Lemma weight_deps_failure cfg g node precision deps :
  _get_weight_deps cfg g node precision = Ret (false, deps) → deps = [].
Proof.
  unfold _get_weight_deps, Linear_get_weight_deps, MM_get_weight_deps,
    Addmm_get_weight_deps.
  intros H. destruct (family cfg); result_inv H;
    try congruence; try destruct x; result_inv H;
    try congruence; by eapply GEMM_weight_deps_failure.
Qed.

Lemma act_deps_failure cfg g node precision deps :
  _get_act_deps cfg g node precision = Ret (false, deps) → deps = [].
Proof. unfold _get_act_deps. intros H. result_inv H; congruence. Qed.

Lemma output_deps_failure cfg g node precision deps :
  _get_output_deps cfg g node precision = Ret (false, deps) → deps = [].
Proof.
  unfold _get_output_deps. intros H.
  destruct precision; result_inv H; try congruence;
    repeat (match type of H with
            | match ?l with [] => _ | _ :: _ => _ end = _ => destruct l
            | (let '(_, _) := ?p in _) = _ => destruct p
            end; result_inv H; try congruence).
Qed.

Theorem resolver_failure_returns_no_nodes cfg g node precision deps :
  _get_bias_deps cfg g node precision = Ret (false, deps)
  ∨ _get_weight_deps cfg g node precision = Ret (false, deps)
  ∨ _get_act_deps cfg g node precision = Ret (false, deps)
  ∨ _get_output_deps cfg g node precision = Ret (false, deps) →
  deps = [].
Proof.
  intros [H|[H|[H|H]]];
    eauto using bias_deps_failure, weight_deps_failure, act_deps_failure,
      output_deps_failure.
Qed.

(** A weight that is accepted is a static parameter: in full precision the
    one node returned, under quantization the operand 0 of the dequantize
    node that is returned first.  At most two more nodes follow. *)
Theorem weight_deps_valid_is_param cfg g node precision deps :
  GEMM_get_weight_deps cfg g node precision = Ret (true, deps) →
  (precision = FP32
   ∧ ∃ weight, get_input_node g node (weight_idx cfg) = Ret (ANode weight)
       ∧ is_param_node g weight = true ∧ deps = [weight])
  ∨ (precision ≠ FP32
     ∧ ∃ dequant_node weight rest,
         get_input_node g node (weight_idx cfg) = Ret (ANode dequant_node)
         ∧ is_dequant g dequant_node = true
         ∧ get_input_node g dequant_node 0 = Ret (ANode weight)
         ∧ is_param_node g weight = true
         ∧ deps = dequant_node :: weight :: rest
         ∧ length rest ≤ 2
         ∧ rest ⊆ all_input_nodes g dequant_node).
Proof.
  unfold GEMM_get_weight_deps. intros H.
  case_bool_decide as Hp.
  - left. split; [done|]. result_inv H.
    apply as_node_Ret in Hx0 as ->. eauto.
  - right. split; [done|]. result_inv H;
      apply as_node_Ret in Hx0 as ->; apply as_node_Ret in Hx2 as ->.
    + eexists _, _, _. repeat split; eauto.
      * rewrite length_take. lia.
      * etrans; [apply subseteq_take | apply subseteq_drop].
    + exists x0, x2, []. repeat split; eauto; try (simpl; lia).
      intros y Hy. by inversion Hy.
Qed.

(** A bias that is accepted is a static parameter, and it is the only node
    the bias resolver ever returns. *)
Theorem bias_deps_valid_is_param cfg g node precision deps :
  _get_bias_deps cfg g node precision = Ret (true, deps) →
  deps = []
  ∨ ∃ idx bias, bias_idx cfg = Some idx
      ∧ get_input_node g node idx = Ret (ANode bias)
      ∧ is_param_node g bias = true
      ∧ deps = [bias].
Proof.
  unfold _get_bias_deps. intros H. result_inv H; auto.
  right. apply as_node_Ret in Hx0 as ->. eauto 10.
Qed.

(** The bias is looked at only when the node has more than two distinct
    node operands: with two or fewer the bias resolver succeeds with no
    node, without reading the bias and so without raising. *)
Theorem bias_deps_two_operands cfg g node precision :
  length (all_input_nodes g node) ≤ 2 →
  _get_bias_deps cfg g node precision = Ret (true, []).
Proof.
  intros Hlen. unfold _get_bias_deps.
  destruct (_ && _); [done|]. destruct (bias_idx cfg); [|done].
  by rewrite (proj2 (Nat.ltb_ge _ _) Hlen).
Qed.

(** Under static quantization the output resolver succeeds only on a node
    with a single consumer, and what it returns ends in a quantize node: the
    consumer itself, or the consumer, a fused activation, followed by the
    quantize node. *)
Theorem output_deps_static_ends_in_quant cfg g node deps :
  _get_output_deps cfg g node STATIC_QUANT = Ret (true, deps) →
  ∃ n_output, node_users g node = [n_output]
    ∧ ((deps = [n_output] ∧ is_fused_act cfg g n_output = false
        ∧ is_quant g n_output = true)
       ∨ (is_fused_act cfg g n_output = true
          ∧ ∃ q, deps = [n_output; q] ∧ is_quant g q = true
                 ∧ (node_users g n_output = [q] ∨ q = n_output))).
Proof.
  unfold _get_output_deps. intros H.
  destruct (node_users g node) as [|n_output [|? ?]]; try discriminate.
  exists n_output. split; [done|].
  destruct (is_fused_act cfg g n_output).
  - right. split; [done|].
    destruct (node_users g n_output) as [|u [|? ?]] eqn:Hu;
      result_inv H; eauto.
  - left. result_inv H. auto.
Qed.

(** In full precision and under dynamic quantization the output resolver
    never fails and never raises; it returns at most the single consumer of
    the node, and only if that is a fused activation. *)
Theorem output_deps_not_static cfg g node precision :
  precision ≠ STATIC_QUANT →
  ∃ deps, _get_output_deps cfg g node precision = Ret (true, deps)
    ∧ (deps = []
       ∨ ∃ n_output, deps = [n_output] ∧ precision = FP32
           ∧ node_users g node = [n_output]
           ∧ is_fused_act cfg g n_output = true).
Proof.
  intros Hp. unfold _get_output_deps. destruct precision; [|done|eauto].
  destruct (node_users g node) as [|n_output [|? ?]]; eauto.
  destruct (is_fused_act cfg g n_output) eqn:Hf; eauto 10.
Qed.

(** Under static quantization the activation resolver succeeds exactly on a
    dequantize node, and returns that node alone. *)
Theorem static_act_deps cfg g node deps :
  _get_act_deps cfg g node STATIC_QUANT = Ret (true, deps) ↔
  ∃ dq_input, get_input_node g node (act_idx cfg) = Ret (ANode dq_input)
    ∧ is_dequant g dq_input = true ∧ deps = [dq_input].
Proof.
  unfold _get_act_deps. simpl. split.
  - intros H. result_inv H. apply as_node_Ret in Hx0 as ->. eauto.
  - intros (dq & -> & Hdq & ->). simpl. by rewrite Hdq.
Qed.

(** A linear node whose quantized precision is overwritten to full
    precision (only FP32 is enabled) gives no weight dependencies: its
    dequantized weight is left outside the partition. *)
Theorem linear_overwritten_weight_not_claimed cfg g node precision :
  family cfg = Linear →
  _overwrite_precision cfg g node = Ret (true, FP32) →
  _get_weight_deps cfg g node precision = Ret (true, []).
Proof.
  intros Hf Hov. unfold _get_weight_deps, Linear_get_weight_deps. rewrite Hf.
  destruct (_ && _); [done|]. by rewrite Hov.
Qed.

(** The precision is overwritten only to FP32, only when FP32 is the one
    enabled precision and only for a node detected as quantized; in every
    other case the detected precision is kept. *)
Theorem overwrite_precision_cases cfg g node overwritten precision :
  _overwrite_precision cfg g node = Ret (overwritten, precision) →
  ∃ detected, _detect_precision cfg g node = Ret detected
    ∧ if overwritten
      then precision = FP32 ∧ enabled_precision_types cfg = [FP32]
           ∧ detected ≠ FP32
      else precision = detected
           ∧ (detected ∈ enabled_precision_types cfg
              ∨ enabled_precision_types cfg ≠ [FP32]).
Proof.
  unfold _overwrite_precision, mem. intros H. result_inv H.
  - exists x. split; [done|].
    apply andb_true_iff in Hb as [Hb H3]. apply andb_true_iff in Hb as [H1 H2].
    apply bool_decide_eq_true in H2. repeat split; try done.
    intros ->. rewrite H2 in H1. by vm_compute in H1.
  - exists precision. split; [done|]. split; [done|].
    destruct (decide (precision ∈ enabled_precision_types cfg)) as [|Hn]; [by left|].
    destruct (decide (enabled_precision_types cfg = [FP32])) as [He|]; [|by right].
    exfalso.
    rewrite (bool_decide_eq_false_2 _ Hn), (bool_decide_eq_true_2 _ He) in Hb.
    simpl in Hb.
    apply Hn. rewrite He. destruct precision; [by left | by vm_compute in Hb ..].
Qed.

End Resolver_properties.

Section Entry_properties.
Context `{Q : QuantUtils}.

(** ** [GEMMConfig.get_deps] as a whole *)

Lemma supported_precision_types_all cfg precision :
  mem precision (supported_precision_types cfg) = true.
Proof.
  unfold supported_precision_types. by destruct (family cfg), precision.
Qed.

Lemma tag_loop_state g deps st :
  g = graph st →
  for_each deps (tag_body g) st = (Ret tt, tagged deps st).
Proof.
  revert st. induction deps as [|d deps IH]; intros st Hg.
  - unfold tagged. destruct st. simpl. f_equal. f_equal.
    by rewrite (left_id_L ∅ (∪)).
  - simpl. unfold mbind, M_bind, tag_body.
    destruct (is_dequant g d || is_quant g d) eqn:Hq;
      unfold tag_as_implicit_q_dq, mret, M_ret.
    + fold (tag_body g). rewrite IH by done.
      unfold tagged. simpl. f_equal. f_equal.
      rewrite filter_cons_True by (unfold is_qdq; by rewrite <- Hg).
      rewrite list_to_set_cons.
      apply set_eq. intros x. rewrite !elem_of_union, elem_of_singleton. tauto.
    + fold (tag_body g). rewrite IH by done. unfold tagged.
      rewrite filter_cons_False; [done|]. unfold is_qdq. rewrite <- Hg. congruence.
Qed.

(** The call is the computation of [GEMM_deps] followed by the tagging;
    when the computation raises nothing has been tagged. *)
Lemma GEMM_get_deps_run cfg node st :
  GEMM_get_deps cfg node st =
  match GEMM_deps cfg (graph st) node with
  | Ret (valid, deps) => (Ret (valid, deps), tagged deps st)
  | Raise e => (Raise e, st)
  | OutOfFuel => (OutOfFuel, st)
  end.
Proof.
  unfold GEMM_get_deps, GEMM_deps. unfold mbind at 1 11. unfold M_bind, reading.
  destruct (_detect_precision cfg (graph st) node) as [p| |]; simpl; try done.
  rewrite supported_precision_types_all. simpl.
  unfold mbind at 1 10. unfold M_bind, reading.
  destruct (_overwrite_precision cfg (graph st) node) as [[ov p']| |]; simpl; try done.
  unfold mbind at 1 8. unfold M_bind, reading.
  destruct (_get_bias_deps cfg (graph st) node p') as [[vb bd]| |]; simpl; try done.
  unfold mbind at 1 6. unfold M_bind, reading.
  destruct (_get_weight_deps cfg (graph st) node p') as [[vw wd]| |]; simpl; try done.
  unfold mbind at 1 4. unfold M_bind, reading.
  destruct (_get_act_deps cfg (graph st) node p') as [[va ad]| |]; simpl; try done.
  unfold mbind at 1 2. unfold M_bind, reading.
  destruct (_get_output_deps cfg (graph st) node p') as [[vo od]| |]; simpl; try done.
  unfold get_graph, reading, mbind, M_bind. simpl.
  change (λ dep : node_id, if is_dequant (graph st) dep || is_quant (graph st) dep
                           then tag_as_implicit_q_dq dep else mret ())
    with (tag_body (graph st)).
  by rewrite tag_loop_state.
Qed.

(** What a call of [GEMMConfig.get_deps] does to the state: it never
    changes the graph or the cache; when it returns, the nodes it has newly
    tagged are exactly the quantize and dequantize nodes of the list it
    returns; when it raises it has tagged nothing. *)
Theorem get_deps_effect cfg node st :
  let '(r, st') := GEMM_get_deps cfg node st in
  graph st' = graph st
  ∧ src_partitions st' = src_partitions st
  ∧ match r with
    | Ret (_, deps) =>
        implicit_q_dq st'
        = list_to_set (filter (λ dep, is_qdq (graph st) dep = true) deps)
            ∪ implicit_q_dq st
    | _ => st' = st
    end.
Proof.
  rewrite GEMM_get_deps_run.
  by destruct (GEMM_deps cfg (graph st) node) as [[valid deps]| |].
Qed.

Lemma weight_deps_length cfg g node precision valid deps :
  _get_weight_deps cfg g node precision = Ret (valid, deps) → length deps ≤ 4.
Proof.
  intros H. destruct valid; [|apply weight_deps_failure in H as ->; simpl; lia].
  assert (∀ p, GEMM_get_weight_deps cfg g node p = Ret (true, deps) → length deps ≤ 4)
    as Hgemm.
  { intros p Hp. apply weight_deps_valid_is_param in Hp
      as [(_ & w & _ & _ & ->) | (_ & dq & w & rest & _ & _ & _ & _ & -> & Hl & _)];
      simpl; lia. }
  unfold _get_weight_deps, Linear_get_weight_deps, MM_get_weight_deps,
    Addmm_get_weight_deps in H.
  destruct (family cfg); result_inv H; simpl; try lia; eauto.
Qed.

Lemma act_deps_length cfg g node precision valid deps :
  _get_act_deps cfg g node precision = Ret (valid, deps) → length deps ≤ 5.
Proof. unfold _get_act_deps. intros H. result_inv H; simpl; lia. Qed.

Lemma output_deps_length cfg g node precision valid deps :
  _get_output_deps cfg g node precision = Ret (valid, deps) → length deps ≤ 2.
Proof.
  intros H. destruct valid; [|apply output_deps_failure in H as ->; simpl; lia].
  destruct (decide (precision = STATIC_QUANT)) as [->|Hp].
  - apply output_deps_static_ends_in_quant in H
      as (u & _ & [(-> & _) | (_ & q & -> & _)]); simpl; lia.
  - destruct (output_deps_not_static cfg g node precision Hp)
      as (deps' & Hd & [-> | (u & -> & _)]);
      rewrite Hd in H; injection H as <-; simpl; lia.
Qed.

Lemma bias_deps_length cfg g node precision valid deps :
  _get_bias_deps cfg g node precision = Ret (valid, deps) → length deps ≤ 1.
Proof.
  intros H. destruct valid; [|apply bias_deps_failure in H as ->; simpl; lia].
  apply bias_deps_valid_is_param in H as [-> | (? & ? & _ & _ & _ & ->)]; simpl; lia.
Qed.

Lemma GEMM_deps_Ret cfg g node valid deps :
  GEMM_deps cfg g node = Ret (valid, deps) →
  ∃ overwritten precision valid_bias bias_deps valid_weight weight_deps
    valid_act act_deps valid_output output_deps,
    _overwrite_precision cfg g node = Ret (overwritten, precision)
    ∧ _get_bias_deps cfg g node precision = Ret (valid_bias, bias_deps)
    ∧ _get_weight_deps cfg g node precision = Ret (valid_weight, weight_deps)
    ∧ _get_act_deps cfg g node precision = Ret (valid_act, act_deps)
    ∧ _get_output_deps cfg g node precision = Ret (valid_output, output_deps)
    ∧ valid = valid_bias && valid_weight && valid_act && valid_output
    ∧ deps = bias_deps ++ weight_deps ++ act_deps ++ output_deps.
Proof.
  unfold GEMM_deps. intros H.
  apply result_bind_Ret in H as (p & _ & H).
  rewrite supported_precision_types_all in H. simpl in H.
  apply result_bind_Ret in H as ([ov p'] & Hov & H).
  apply result_bind_Ret in H as ([vb bd] & Hb & H).
  apply result_bind_Ret in H as ([vw wd] & Hw & H).
  apply result_bind_Ret in H as ([va ad] & Ha & H).
  apply result_bind_Ret in H as ([vo od] & Ho & H).
  injection H as <- <-.
  exists ov, p', vb, bd, vw, wd, va, ad, vo, od. by repeat split.
Qed.

(** The cluster around a node is small: the resolution never returns more
    than twelve dependency nodes (one for the bias, four for the weight,
    five for the activation, two at the output). *)
Theorem get_deps_at_most_12_nodes cfg node st valid deps :
  (GEMM_get_deps cfg node st).1 = Ret (valid, deps) → length deps ≤ 12.
Proof.
  rewrite GEMM_get_deps_run. intros H.
  destruct (GEMM_deps cfg (graph st) node) as [[v d]| |] eqn:E; simpl in H;
    try discriminate.
  injection H as -> ->.
  apply GEMM_deps_Ret in E
    as (ov & p & vb & bd & vw & wd & va & ad & vo & od & _ & Hb & Hw & Ha & Ho & _ & ->).
  apply bias_deps_length in Hb. apply weight_deps_length in Hw.
  apply act_deps_length in Ha. apply output_deps_length in Ho.
  rewrite !length_app. lia.
Qed.

(** A valid resolution of a statically quantized node ends in a quantize
    node, and that node is tagged when the call returns. *)
Theorem get_deps_static_ends_in_quant cfg node st overwritten deps st' :
  _overwrite_precision cfg (graph st) node = Ret (overwritten, STATIC_QUANT) →
  GEMM_get_deps cfg node st = (Ret (true, deps), st') →
  ∃ q, last deps = Some q
    ∧ is_quant (graph st) q = true
    ∧ q ∈ implicit_q_dq st'.
Proof.
  intros Hov H. rewrite GEMM_get_deps_run in H.
  destruct (GEMM_deps cfg (graph st) node) as [[v d]| |] eqn:E; try discriminate.
  injection H as -> -> <-.
  apply GEMM_deps_Ret in E
    as (ov & p & vb & bd & vw & wd & va & ad & vo & od & Hov' & _ & _ & _ & Ho & Hv & ->).
  rewrite Hov in Hov'. injection Hov' as <- <-.
  symmetry in Hv. repeat (apply andb_true_iff in Hv as [Hv ?]). subst.
  apply output_deps_static_ends_in_quant in Ho
    as (u & _ & [(-> & _ & Hq) | (_ & q & -> & Hq & _)]).
  - exists u. rewrite !app_assoc, last_snoc. split; [done|]. split; [done|].
    unfold tagged. simpl. apply elem_of_union_l, elem_of_list_to_set, list_elem_of_filter.
    split; [unfold is_qdq; by rewrite Hq, orb_true_r|]. set_solver.
  - exists q. rewrite !app_assoc. change [u; q] with ([u] ++ [q]).
    rewrite app_assoc, last_snoc. split; [done|]. split; [done|].
    unfold tagged. simpl. apply elem_of_union_l, elem_of_list_to_set, list_elem_of_filter.
    split; [unfold is_qdq; by rewrite Hq, orb_true_r|]. set_solver.
Qed.

Lemma GEMM_get_deps_force_fp32 cfg node st overwritten :
  force_non_static_weights_for_f32_linear cfg = true →
  family cfg ≠ Convolution →
  _overwrite_precision cfg (graph st) node = Ret (overwritten, FP32) →
  (GEMM_get_deps cfg node st).1 = _get_output_deps cfg (graph st) node FP32.
Proof.
  intros Hforce Hfam Hov.
  rewrite GEMM_get_deps_run. unfold GEMM_deps.
  assert (∃ p, _detect_precision cfg (graph st) node = Ret p) as [p Hp].
  { unfold _overwrite_precision in Hov.
    destruct (_detect_precision cfg (graph st) node); try discriminate; eauto. }
  rewrite Hp. simpl. rewrite supported_precision_types_all. simpl.
  rewrite Hov. simpl.
  unfold _get_bias_deps. rewrite Hforce. simpl.
  assert (_get_weight_deps cfg (graph st) node FP32 = Ret (true, [])) as ->.
  { unfold _get_weight_deps, Linear_get_weight_deps, MM_get_weight_deps,
      Addmm_get_weight_deps.
    destruct (family cfg); try done; by rewrite Hforce. }
  simpl.
  destruct (node_users (graph st) node) as [|u [|? ?]]; try done.
  by destruct (is_fused_act cfg (graph st) u).
Qed.

(** ** The search for the source partition *)

Lemma find_src_partition_inner node found partition_list :
  (foldl (pick_partition node) found partition_list = found
   ∧ Forall (λ p, node ∉ sp_nodes p) partition_list)
  ∨ (∃ p, foldl (pick_partition node) found partition_list = Some p
          ∧ p ∈ partition_list ∧ node ∈ sp_nodes p).
Proof.
  revert found. induction partition_list as [|p l IH]; intros found; simpl.
  { left. by split. }
  unfold pick_partition at 2 4, mem. case_bool_decide as Hin.
  - destruct (IH (Some p)) as [[-> Hall] | (q & -> & Hq & Hn)].
    + right. exists p. split; [done|]. split; [by left | done].
    + right. exists q. split; [done|]. split; [by right | done].
  - destruct (IH found) as [[-> Hall] | (q & -> & Hq & Hn)].
    + left. split; [done|]. by constructor.
    + right. exists q. split; [done|]. split; [by right | done].
Qed.

Lemma find_src_partition_outer node found partitions :
  (foldl (foldl (pick_partition node)) found partitions = found
   ∧ Forall (Forall (λ p, node ∉ sp_nodes p)) partitions)
  ∨ (∃ p l, foldl (foldl (pick_partition node)) found partitions = Some p
            ∧ l ∈ partitions ∧ p ∈ l ∧ node ∈ sp_nodes p).
Proof.
  revert found. induction partitions as [|l ps IH]; intros found; simpl.
  { left. by split. }
  destruct (find_src_partition_inner node found l) as [[-> Hall] | (q & -> & Hq & Hn)].
  - destruct (IH found) as [[-> Hall'] | (q & l' & -> & Hl & Hq & Hn)].
    + left. split; [done|]. by constructor.
    + right. exists q, l'. split; [done|]. split; [by right | done].
  - destruct (IH (Some q)) as [[-> Hall'] | (q' & l' & -> & Hl & Hq' & Hn')].
    + right. exists q, l. split; [done|]. split; [by left | done].
    + right. exists q', l'. split; [done|]. split; [by right | done].
Qed.

Lemma find_src_partition_fold partitions node :
  find_src_partition partitions node
  = foldl (foldl (pick_partition node)) None partitions.
Proof. reflexivity. Qed.

(** The search finds a partition exactly when some partition holds the
    node, and what it finds is one of the partitions that hold it. *)
Theorem find_src_partition_spec partitions node :
  match find_src_partition partitions node with
  | Some p => node ∈ sp_nodes p ∧ ∃ l, l ∈ partitions ∧ p ∈ l
  | None => ∀ l p, l ∈ partitions → p ∈ l → node ∉ sp_nodes p
  end.
Proof.
  rewrite find_src_partition_fold.
  destruct (find_src_partition_outer node None partitions)
    as [[-> Hall] | (q & l & -> & Hl & Hq & Hn)].
  - intros l p Hl Hp. rewrite Forall_forall in Hall.
    specialize (Hall l Hl). rewrite Forall_forall in Hall. by apply Hall.
  - eauto.
Qed.

Lemma pick_partition_last node found partition_list :
  foldl (pick_partition node) found partition_list
  = match last (filter (λ p, node ∈ sp_nodes p) partition_list) with
    | Some p => Some p
    | None => found
    end.
Proof.
  induction partition_list as [|p l IH] using rev_ind; [done|].
  rewrite foldl_app, filter_app. simpl. unfold pick_partition at 1, mem.
  case_bool_decide as Hin.
  - rewrite filter_cons_True, filter_nil by done. by rewrite last_snoc.
  - rewrite filter_cons_False, filter_nil by done. by rewrite app_nil_r.
Qed.

Lemma foldl_concat {A B} (f : A → B → A) (a : A) (ls : list (list B)) :
  foldl (foldl f) a ls = foldl f a (concat ls).
Proof.
  revert a. induction ls as [|l ls IH]; intros a; simpl; [done|].
  by rewrite foldl_app, IH.
Qed.

(** The search returns the last, in the order of the iteration, of the
    partitions that hold the node: of all the partitions of all the lists,
    in sequence, those that hold the node are kept, and the last of them is
    the result; there is none exactly when the search finds nothing. *)
Theorem find_src_partition_last_wins partitions node :
  find_src_partition partitions node
  = last (filter (λ p, node ∈ sp_nodes p) (concat partitions)).
Proof.
  rewrite find_src_partition_fold, foldl_concat, pick_partition_last.
  by destruct (last _).
Qed.

(** ** The walk to the boundary of the partition *)

(** Where the walk stops: at a declared input of the partition or at a node
    without node operands. *)
Theorem find_partition_args_stops g sp fuel input_node r :
  find_partition_args g sp fuel input_node = Ret r →
  all_input_nodes g r = [] ∨ r ∈ sp_input_nodes sp.
Proof.
  revert input_node. induction fuel as [|fuel IH]; intros n H; [discriminate|].
  simpl in H. destruct (all_input_nodes g n) as [|first rest] eqn:Hin.
  { injection H as <-. by left. }
  unfold mem in H. case_bool_decide as Hm; simpl in H.
  - injection H as <-. by right.
  - by apply IH in H.
Qed.

(** A node that is a declared input of the partition, or has no node
    operands, is mapped to itself. *)
Theorem find_partition_args_fixed g sp fuel input_node :
  all_input_nodes g input_node = [] ∨ input_node ∈ sp_input_nodes sp →
  find_partition_args g sp (S fuel) input_node = Ret input_node.
Proof.
  intros [H|H]; simpl; [by rewrite H|].
  destruct (all_input_nodes g input_node); [done|].
  unfold mem. by rewrite bool_decide_eq_true_2.
Qed.

(** ** [AddmmConfig.get_deps] *)

(** The source partitions are computed at most once: after a call, however
    it ends, the cache holds the partitions that were cached before, or the
    partitions of the graph if none were. *)
Theorem Addmm_get_deps_fills_cache cfg fuel node st :
  src_partitions (Addmm_get_deps cfg fuel node st).2
  = Some (effective_partitions st).
Proof.
  rewrite Addmm_get_deps_unfold.
  destruct (find_src_partition _ _) as [sp|].
  - by rewrite get_deps_from_src_partition_keeps_cache.
  - by rewrite GEMM_get_deps_keeps_cache.
Qed.

(** A node outside every source partition is resolved as by
    [GEMMConfig.get_deps]. *)
Theorem Addmm_get_deps_outside_partitions cfg fuel node st :
  (∀ l p, l ∈ effective_partitions st → p ∈ l → node ∉ sp_nodes p) →
  (Addmm_get_deps cfg fuel node st).1 = (GEMM_get_deps cfg node st).1.
Proof.
  intros Hout. rewrite Addmm_get_deps_unfold.
  pose proof (find_src_partition_spec (effective_partitions st) node) as Hs.
  destruct (find_src_partition _ _) as [sp|].
  - destruct Hs as [Hin (l & Hl & Hp)]. by destruct (Hout l sp Hl Hp).
  - by apply GEMM_get_deps_graph_determined.
Qed.

(** With [force_non_static_weights_for_f32_linear], [get_deps] of a
    [LinearConfig], or of an [AddmmConfig] or [MMConfig] on a node outside
    every source partition, claims neither weight nor bias for a node in
    full precision: the resolution is valid and returns what the output
    resolver returns, that is at most the fused activation. *)
Theorem force_non_static_fp32_claims_no_params cfg fuel node st overwritten :
  force_non_static_weights_for_f32_linear cfg = true →
  family cfg ≠ Convolution →
  (family cfg = Linear
   ∨ ∀ l p, l ∈ effective_partitions st → p ∈ l → node ∉ sp_nodes p) →
  _overwrite_precision cfg (graph st) node = Ret (overwritten, FP32) →
  (get_deps cfg fuel node st).1 = _get_output_deps cfg (graph st) node FP32
  ∧ ∃ deps, _get_output_deps cfg (graph st) node FP32 = Ret (true, deps)
      ∧ length deps ≤ 1.
Proof.
  intros Hforce Hfam Hout Hov. split.
  - assert ((GEMM_get_deps cfg node st).1 = _get_output_deps cfg (graph st) node FP32)
      as Hgemm by (by eapply GEMM_get_deps_force_fp32).
    assert (family cfg ≠ Linear → (Addmm_get_deps cfg fuel node st).1
                                   = (GEMM_get_deps cfg node st).1) as Haddmm.
    { intros Hnl. destruct Hout as [?|Hout]; [done|].
      rewrite Addmm_get_deps_unfold.
      destruct (find_src_partition_outer node None (effective_partitions st))
        as [[Hnone _] | (q & l & _ & Hl & Hq & Hn)].
      - rewrite find_src_partition_fold, Hnone.
        by apply GEMM_get_deps_graph_determined.
      - by destruct (Hout l q Hl Hq). }
    unfold get_deps. destruct (family cfg); try done; by rewrite Haddmm.
  - destruct (output_deps_not_static cfg (graph st) node FP32) as (deps & Hd & Hs);
      [done|].
    exists deps. split; [done|]. destruct Hs as [-> | (u & -> & _)]; simpl; lia.
Qed.

(** The list returned for a node of a source partition has no duplicates;
    with the override it holds only nodes of the partition, and without it,
    once the validation is passed, all of them. *)
Theorem get_deps_from_src_partition_shape cfg fuel node sp st valid deps st' :
  get_deps_from_src_partition cfg fuel node sp st = (Ret (valid, deps), st') →
  NoDup deps
  ∧ (force_non_static_weights_for_f32_linear cfg = true → deps ⊆ sp_nodes sp)
  ∧ (force_non_static_weights_for_f32_linear cfg = false →
     deps = [] ∧ valid = false ∨ sp_nodes sp ⊆ deps).
Proof.
  intros H.
  pose proof H as H'.
  apply get_deps_from_src_partition_combines in H
    as [(f & Hf & Hi & ->) | (f & d & Hf & Hi & ->)].
  - split; [constructor|]. split; [intros _ x Hx; by inversion Hx|].
    intros _. left. split; [done|].
    rewrite (get_deps_from_src_partition_invalid cfg fuel node sp st f Hf Hi) in H'.
    by injection H' as <-.
  - destruct (force_non_static_weights_for_f32_linear cfg);
      unfold list_set_inter, list_set_union.
    + split; [apply NoDup_elements|]. split; [|done].
      intros _ x. rewrite elem_of_elements, elem_of_intersection, !elem_of_list_to_set.
      tauto.
    + split; [apply NoDup_elements|]. split; [done|].
      intros _. right. intros x.
      rewrite elem_of_elements, elem_of_union, !elem_of_list_to_set. tauto.
Qed.

(** ** The two entry points together *)

Lemma GEMM_check_constraints_true cfg fuel node st st' :
  GEMM_check_constraints cfg fuel node st = (Ret true, st') →
  check_common_constraints cfg (graph st) node = true
  ∧ ∃ deps, get_deps cfg fuel node st = (Ret (true, deps), st').
Proof.
  unfold GEMM_check_constraints. intros H.
  apply M_bind_Ret in H as (g & s0 & Hg & H).
  apply reading_Ret in Hg as [Hg ->]. injection Hg as <-.
  destruct (check_common_constraints cfg (graph st) node); simpl in H;
    [|discriminate].
  apply M_bind_Ret in H as ([valid deps] & s1 & Hd & H).
  injection H as -> ->. eauto.
Qed.

Lemma check_constraints_true cfg fuel node st st' :
  check_constraints cfg fuel node st = (Ret true, st') →
  GEMM_check_constraints cfg fuel node st = (Ret true, st')
  ∧ (family cfg = Convolution → conv_constraints cfg (graph st') node = Ret true).
Proof.
  unfold check_constraints, Conv_check_constraints. intros H.
  destruct (family cfg); try (split; [done | discriminate]).
  apply M_bind_Ret in H as (ok & s1 & Hok & H).
  destruct ok; simpl in H; [|discriminate].
  apply reading_Ret in H as [H ->]. by split.
Qed.

(** On a well-formed graph, a node that [check_constraints] accepts has
    valid dependencies, and [get_node_and_deps], called afterwards, returns
    the node followed by the dependencies of that valid resolution. *)
Theorem check_constraints_then_get_node_and_deps cfg fuel node st st' :
  well_formed (graph st) →
  check_constraints cfg fuel node st = (Ret true, st') →
  ∃ deps,
    get_deps cfg fuel node st = (Ret (true, deps), st')
    ∧ (get_node_and_deps cfg fuel node st').1 = Ret (node :: deps).
Proof.
  intros Hwf H. apply check_constraints_true in H as [H _].
  apply GEMM_check_constraints_true in H as [_ [deps Hd]].
  exists deps. split; [done|].
  pose proof (get_deps_stable _ _ _ _ _ _ st' Hwf Hd eq_refl eq_refl) as Hd'.
  unfold get_node_and_deps, mbind, M_bind.
  destruct (get_deps cfg fuel node st') as [r s2]. simpl in Hd'. by subst r.
Qed.

(** What an accepted convolution looks like: at most two strides; under
    dynamic quantization exactly two and not depthwise; if transposed, no
    output padding and, with a per-channel quantized kernel, one group and
    quantization along axis 1. *)
Theorem conv_accepted_shape cfg fuel node st st' :
  family cfg = Convolution →
  check_constraints cfg fuel node st = (Ret true, st') →
  let g := graph st in
  ∃ strides kernel groups is_transpose,
    node_args g node !! 3 = Some (AInts strides)
    ∧ node_args g node !! 1 = Some (ANode kernel)
    ∧ node_args g node !! 8 = Some groups
    ∧ node_args g node !! 6 = Some is_transpose
    ∧ length strides ≤ 2
    ∧ (_detect_precision cfg g node = Ret DYNAMIC_QUANT →
       length strides = 2
       ∧ is_depthwise_conv (get_shape g kernel) groups is_transpose = false)
    ∧ (truthy is_transpose = true →
       (∃ output_padding,
          node_args g node !! 7 = Some (AInts output_padding)
          ∧ Forall (λ out_pad, out_pad = 0%Z) output_padding)
       ∧ ∀ qp, QuantParams_from_weights g kernel = Some qp →
               per_channel qp = true →
               ∃ n, as_int groups = Ret n ∧ (n ≤ 1)%Z ∧ axis qp = 1%Z).
Proof.
  intros Hf H g.
  apply check_constraints_true in H as [Hg Hc]. specialize (Hc Hf).
  pose proof (GEMM_check_constraints_keeps_graph cfg fuel node Hf st) as Hk.
  rewrite Hg in Hk. simpl in Hk. rewrite Hk in Hc. fold g in Hc. clear Hg Hk.
  unfold conv_constraints, get_input_node, index in Hc.
  destruct (node_args g node !! 3) as [stride|] eqn:H3; [|discriminate].
  simpl in Hc. destruct stride as [| | | |strides]; try discriminate. simpl in Hc.
  destruct (2 <? length strides) eqn:Hlen; [discriminate|].
  apply Nat.ltb_ge in Hlen.
  destruct (node_args g node !! 1) as [[kernel| | | |]|] eqn:H1; try discriminate.
  simpl in Hc.
  destruct (node_args g node !! 8) as [groups|] eqn:H8; [|discriminate]. simpl in Hc.
  destruct (node_args g node !! 6) as [is_transpose|] eqn:H6; [|discriminate].
  simpl in Hc.
  exists strides, kernel, groups, is_transpose. repeat (split; [done|]).
  destruct (_detect_precision cfg g node) as [precision| |] eqn:Hp; try discriminate.
  simpl in Hc.
  destruct (bool_decide (precision = DYNAMIC_QUANT)
            && (negb (length strides =? 2)
                || is_depthwise_conv (get_shape g kernel) groups is_transpose))
    eqn:Hdyn; [discriminate|].
  split.
  { intros [= ->]. rewrite bool_decide_eq_true_2 in Hdyn by done. simpl in Hdyn.
    apply orb_false_iff in Hdyn as [Hs Hd].
    apply negb_false_iff, Nat.eqb_eq in Hs. by split. }
  intros Ht. rewrite Ht in Hc.
  destruct (node_args g node !! 7) as [pads|] eqn:H7; [|discriminate]. simpl in Hc.
  destruct pads as [| | | |output_padding]; try discriminate. simpl in Hc.
  destruct (existsb _ output_padding) eqn:Hex; [discriminate|].
  split.
  { exists output_padding. split; [done|].
    apply Forall_forall. intros z Hz.
    destruct (decide (z = 0%Z)) as [|Hne]; [done|]. exfalso.
    assert (existsb (λ out_pad, negb (out_pad =? 0)%Z) output_padding = true) as Hex'.
    { apply existsb_exists. exists z. split; [by apply list_elem_of_In|].
      by apply negb_true_iff, Z.eqb_neq. }
    congruence. }
  intros qp Hqp Hpc. rewrite Hqp in Hc. simpl in Hc. rewrite Hpc in Hc.
  destruct (as_int groups) as [n| |]; try discriminate. simpl in Hc.
  destruct ((1 <? n)%Z || negb (axis qp =? 1)%Z) eqn:Hor; [discriminate|].
  apply orb_false_iff in Hor as [Hn Ha].
  apply Z.ltb_ge in Hn. apply negb_false_iff, Z.eqb_eq in Ha. eauto.
Qed.

End Entry_properties.

(** ** The further properties on the concrete graphs *)

Lemma resolver_failure_returns_no_nodes_witness :
  @_get_weight_deps ex_Q (LinearConfig all_precisions false)
    dq_linear_graph_per_tensor 11 DYNAMIC_QUANT = Ret (false, [])
  ∧ ([] : list node_id) = [].
Proof.
  split; [vm_compute; reflexivity|].
  apply (@resolver_failure_returns_no_nodes ex_Q (LinearConfig all_precisions false)
           dq_linear_graph_per_tensor 11 DYNAMIC_QUANT []).
  right. left. vm_compute. reflexivity.
Defined.

Lemma weight_deps_valid_is_param_witness :
  let cfg := LinearConfig all_precisions false in
  let g := dq_linear_graph in
  (DYNAMIC_QUANT = FP32
   ∧ ∃ weight, get_input_node g 11 (weight_idx cfg) = Ret (ANode weight)
       ∧ @is_param_node ex_Q g weight = true ∧ [9; 6; 7; 8] = [weight])
  ∨ (DYNAMIC_QUANT ≠ FP32
     ∧ ∃ dequant_node weight rest,
         get_input_node g 11 (weight_idx cfg) = Ret (ANode dequant_node)
         ∧ @is_dequant ex_Q g dequant_node = true
         ∧ get_input_node g dequant_node 0 = Ret (ANode weight)
         ∧ @is_param_node ex_Q g weight = true
         ∧ [9; 6; 7; 8] = dequant_node :: weight :: rest
         ∧ length rest ≤ 2
         ∧ rest ⊆ all_input_nodes g dequant_node).
Proof.
  intros cfg g.
  apply (@weight_deps_valid_is_param ex_Q cfg g 11 DYNAMIC_QUANT [9; 6; 7; 8]).
  vm_compute. reflexivity.
Defined.

Lemma bias_deps_valid_is_param_witness :
  let cfg := LinearConfig all_precisions false in
  let g := dq_linear_graph in
  [10] = []
  ∨ ∃ idx bias, bias_idx cfg = Some idx
      ∧ get_input_node g 11 idx = Ret (ANode bias)
      ∧ @is_param_node ex_Q g bias = true
      ∧ [10] = [bias].
Proof.
  intros cfg g.
  apply (@bias_deps_valid_is_param ex_Q cfg g 11 DYNAMIC_QUANT [10]).
  vm_compute. reflexivity.
Defined.

Lemma bias_deps_two_operands_witness :
  @_get_bias_deps ex_Q (AddmmConfig all_precisions false)
    addmm_shared_operand_graph 2 FP32 = Ret (true, []).
Proof.
  apply (@bias_deps_two_operands ex_Q). vm_compute. lia.
Defined.

Lemma output_deps_static_ends_in_quant_witness :
  let cfg := LinearConfig all_precisions false in
  let g := static_linear_graph in
  ∃ n_output, node_users g 5 = [n_output]
    ∧ (([6; 7] = [n_output] ∧ @is_fused_act ex_Q cfg g n_output = false
        ∧ @is_quant ex_Q g n_output = true)
       ∨ (@is_fused_act ex_Q cfg g n_output = true
          ∧ ∃ q, [6; 7] = [n_output; q] ∧ @is_quant ex_Q g q = true
                 ∧ (node_users g n_output = [q] ∨ q = n_output))).
Proof.
  intros cfg g.
  apply (@output_deps_static_ends_in_quant ex_Q cfg g 5 [6; 7]).
  vm_compute. reflexivity.
Defined.

Lemma output_deps_not_static_witness :
  let cfg := LinearConfig all_precisions false in
  let g := fp32_linear_graph in
  ∃ deps, @_get_output_deps ex_Q cfg g 2 FP32 = Ret (true, deps)
    ∧ (deps = []
       ∨ ∃ n_output, deps = [n_output] ∧ FP32 = FP32
           ∧ node_users g 2 = [n_output]
           ∧ @is_fused_act ex_Q cfg g n_output = true).
Proof.
  intros cfg g. apply (@output_deps_not_static ex_Q cfg g 2 FP32). discriminate.
Defined.

Lemma linear_overwritten_weight_not_claimed_witness :
  @_get_weight_deps ex_Q (LinearConfig [FP32] false) dq_linear_graph 11 FP32
  = Ret (true, []).
Proof.
  apply (@linear_overwritten_weight_not_claimed ex_Q);
    [reflexivity | vm_compute; reflexivity].
Defined.

Lemma overwrite_precision_cases_witness :
  let cfg := LinearConfig [FP32] false in
  ∃ detected, @_detect_precision ex_Q cfg dq_linear_graph 11 = Ret detected
    ∧ FP32 = FP32 ∧ enabled_precision_types cfg = [FP32] ∧ detected ≠ FP32.
Proof.
  intros cfg.
  apply (@overwrite_precision_cases ex_Q cfg dq_linear_graph 11 true FP32).
  vm_compute. reflexivity.
Defined.

Lemma get_deps_at_most_12_nodes_witness :
  length [10; 9; 6; 7; 8; 5; 4; 2; 3; 1] ≤ 12.
Proof.
  apply (@get_deps_at_most_12_nodes ex_Q (LinearConfig all_precisions false) 11
           (initial_state dq_linear_graph) true [10; 9; 6; 7; 8; 5; 4; 2; 3; 1]).
  vm_compute. reflexivity.
Defined.

Lemma get_deps_static_ends_in_quant_witness :
  let cfg := LinearConfig all_precisions false in
  let st := initial_state static_linear_graph in
  ∃ q, last [4; 3; 2; 6; 7] = Some q
    ∧ @is_quant ex_Q (graph st) q = true
    ∧ q ∈ implicit_q_dq (@GEMM_get_deps ex_Q cfg 5 st).2.
Proof.
  intros cfg st.
  apply (@get_deps_static_ends_in_quant ex_Q cfg 5 st false [4; 3; 2; 6; 7]);
    vm_compute; reflexivity.
Defined.

Lemma force_non_static_fp32_claims_no_params_witness :
  let cfg := LinearConfig all_precisions true in
  let st := initial_state fp32_linear_graph in
  (@get_deps ex_Q cfg 0 2 st).1 = @_get_output_deps ex_Q cfg (graph st) 2 FP32
  ∧ ∃ deps, @_get_output_deps ex_Q cfg (graph st) 2 FP32 = Ret (true, deps)
      ∧ length deps ≤ 1.
Proof.
  intros cfg st.
  apply (@force_non_static_fp32_claims_no_params ex_Q cfg 0 2 st false);
    [reflexivity | discriminate | by left | vm_compute; reflexivity].
Defined.

(** Inside a source partition the override gives another list: the addmm
    node 4 of the partition claims nothing, while the output resolver
    returns the fused relu. *)
Example force_non_static_fp32_inside_partition :
  let cfg := AddmmConfig all_precisions true in
  let st := initial_state addmm_graph in
  @_overwrite_precision ex_Q cfg (graph st) 4 = Ret (false, FP32)
  ∧ (@get_deps ex_Q cfg 10 4 st).1 = Ret (true, [])
  ∧ @_get_output_deps ex_Q cfg (graph st) 4 FP32 = Ret (true, [5]).
Proof. by vm_compute. Qed.

(** Two partitions hold node 4; the search returns the second, in the same
    list or in a later one. *)
Example find_src_partition_two_partitions :
  find_src_partition [[addmm_partition_bad_act; addmm_partition]] 4
  = Some addmm_partition
  ∧ find_src_partition [[addmm_partition]; [addmm_partition_bad_act]] 4
    = Some addmm_partition_bad_act
  ∧ find_src_partition [[addmm_partition]; [addmm_partition_bad_act]] 0 = None.
Proof. by vm_compute. Qed.

Lemma find_partition_args_stops_witness :
  all_input_nodes addmm_graph 1 = [] ∨ 1 ∈ sp_input_nodes addmm_partition.
Proof.
  apply (find_partition_args_stops addmm_graph addmm_partition 10 3 1).
  vm_compute. reflexivity.
Defined.

Lemma find_partition_args_returns_witness :
  ∃ r, find_partition_args addmm_graph addmm_partition 4 3 = Ret r.
Proof.
  apply find_partition_args_returns; [apply addmm_graph_topological | lia].
Defined.

Lemma fake_args_return_witness :
  ∃ fake_args,
    map_result (λ arg, arg ← as_node arg;
                       find_partition_args addmm_graph addmm_partition 4 arg)
               (node_args addmm_graph 4) = Ret fake_args.
Proof.
  apply fake_args_return; [apply addmm_graph_topological | lia |].
  apply (bool_decide_unpack
           (Forall (λ a, is_node a = true) (node_args addmm_graph 4))).
  vm_compute. exact I.
Defined.

Lemma Addmm_get_deps_outside_partitions_witness :
  let cfg := AddmmConfig all_precisions false in
  let st := initial_state addmm_graph in
  (@Addmm_get_deps (example_utils []) cfg 10 4 st).1
  = (@GEMM_get_deps (example_utils []) cfg 4 st).1.
Proof.
  intros cfg st. apply (@Addmm_get_deps_outside_partitions (example_utils [])).
  intros l p Hl. by inversion Hl.
Defined.

Lemma get_deps_from_src_partition_shape_witness :
  let cfg := AddmmConfig all_precisions false in
  NoDup [4; 2; 5; 3; 1]
  ∧ (force_non_static_weights_for_f32_linear cfg = true →
     [4; 2; 5; 3; 1] ⊆ sp_nodes addmm_partition)
  ∧ (force_non_static_weights_for_f32_linear cfg = false →
     [4; 2; 5; 3; 1] = [] ∧ true = false
     ∨ sp_nodes addmm_partition ⊆ [4; 2; 5; 3; 1]).
Proof.
  intros cfg.
  apply (@get_deps_from_src_partition_shape ex_Q cfg 10 4 addmm_partition
           (initial_state addmm_graph) true [4; 2; 5; 3; 1]
           (@get_deps_from_src_partition ex_Q cfg 10 4 addmm_partition
              (initial_state addmm_graph)).2).
  vm_compute. reflexivity.
Defined.

Lemma check_constraints_then_get_node_and_deps_witness :
  let cfg := AddmmConfig all_precisions false in
  let st := initial_state addmm_graph in
  let st' := (@check_constraints ex_Q cfg 10 4 st).2 in
  ∃ deps,
    @get_deps ex_Q cfg 10 4 st = (Ret (true, deps), st')
    ∧ (@get_node_and_deps ex_Q cfg 10 4 st').1 = Ret (4 :: deps).
Proof.
  intros cfg st st'.
  apply (@check_constraints_then_get_node_and_deps ex_Q cfg 10 4 st st').
  - apply well_formedb_sound. vm_compute. reflexivity.
  - vm_compute. reflexivity.
Defined.

Lemma conv_accepted_shape_witness :
  let cfg := ConvolutionConfig all_precisions false in
  let g := conv2d_graph in
  ∃ strides kernel groups is_transpose,
    node_args g 3 !! 3 = Some (AInts strides)
    ∧ node_args g 3 !! 1 = Some (ANode kernel)
    ∧ node_args g 3 !! 8 = Some groups
    ∧ node_args g 3 !! 6 = Some is_transpose
    ∧ length strides ≤ 2
    ∧ (@_detect_precision ex_Q cfg g 3 = Ret DYNAMIC_QUANT →
       length strides = 2
       ∧ @is_depthwise_conv ex_Q (@get_shape ex_Q g kernel) groups is_transpose = false)
    ∧ (truthy is_transpose = true →
       (∃ output_padding,
          node_args g 3 !! 7 = Some (AInts output_padding)
          ∧ Forall (λ out_pad, out_pad = 0%Z) output_padding)
       ∧ ∀ qp, @QuantParams_from_weights ex_Q g kernel = Some qp →
               per_channel qp = true →
               ∃ n, as_int groups = Ret n ∧ (n ≤ 1)%Z ∧ axis qp = 1%Z).
Proof.
  intros cfg g.
  apply (@conv_accepted_shape ex_Q cfg 0 3 (initial_state conv2d_graph)
           (@check_constraints ex_Q cfg 0 3 (initial_state conv2d_graph)).2);
    [reflexivity | vm_compute; reflexivity].
Defined.

Lemma invalid_source_partition_false_witness :
  let cfg := MMConfig all_precisions false in
  let sp := mkSourcePartition [3; 4] [0; 1] [4] in
  (∃ act, [0; 1] !! act_idx cfg = Some act ∧ act ∈ sp_input_nodes sp)
  ∧ (∃ weight, [0; 1] !! weight_idx cfg = Some weight
               ∧ weight ∈ sp_nodes sp ++ sp_input_nodes sp)
  ∧ length (sp_output_nodes sp) = 1
  ∧ (∀ i, bias_idx cfg = Some (S i) →
          ∃ bias, [0; 1] !! S i = Some bias ∧ bias ∈ sp_nodes sp).
Proof.
  intros cfg sp. apply invalid_source_partition_false. vm_compute. reflexivity.
Defined.
